(** * SONG: the multipole addressing macros of the perturbations2 module

    A shallow embedding of [include/perturbations2_macros.h] and of the
    configuration structure declared in [include/parser.h].

    - C [int] values are integers of [Z], 32 bits wide as on the platforms
      the solver runs on; the macros compare them, take [abs], add a base
      to an offset, form the subscript [m-m1+1] and, in [sources], multiply.
      [abs] is the library's: the absolute value, except at [INT_MIN],
      which has none among the [int]s and which the two's-complement
      negation maps to itself.  The subscript of [sources], a product and
      a sum, wraps around; the other sums are subscripts as they stand.
    - C [double] values are binary64 numbers, [spec_float] of the Standard
      Library with precision 53 and maximal exponent 1024.
    - An array reached through a pointer is a finite partial map from
      integer subscripts to cells ([gmap Z]).  A subscript outside the
      domain of the map is an access outside the array: C gives it no
      meaning, the embedding returns [None]. *)

From Stdlib Require Import ZArith Lia Bool Ascii.
From Stdlib Require Import Floats.SpecFloat.
From stdpp Require Import base option list gmap strings.

Local Open Scope Z_scope.

(** ** Doubles *)

Module Dbl.

Definition double : Type := spec_float.

Definition prec : Z := 53.
Definition emax : Z := 1024.

(** The [int] constant [0] converted to [double]. *)
Definition zero : double := S754_zero false.
Definition one : double := S754_finite false 4503599627370496 (-52).
Definition nan : double := S754_nan.

Definition mul (x y : double) : double := SFmul prec emax x y.

(** [x == 0] of C: true on both zeros. *)
Definition is_zero (x : double) : bool :=
  match x with S754_zero _ => true | _ => false end.

(** Neither a NaN nor an infinity. *)
Definition finite (x : double) : bool :=
  match x with S754_zero _ | S754_finite _ _ _ => true | _ => false end.

End Dbl.

Export Dbl.

(** ** Arrays *)

Module Arr.

(** [a[i][j]] *)
Definition get2 {A} (a : gmap Z (gmap Z A)) (i j : Z) : option A :=
  a !! i ≫= λ row, row !! j.

(** [a[i][j][k]] *)
Definition get3 {A} (a : gmap Z (gmap Z (gmap Z A))) (i j k : Z) : option A :=
  a !! i ≫= λ plane, get2 plane j k.

End Arr.

(** ** The structures the macros read

    The structures are declared in other headers of the solver.  The
    records keep the fields that the macros embedded below name, under the
    names the macros spell; of the product arrays of the workspace these
    are the eight behind [c_minus_12] to [c_plus_22]. *)

(** [ppw2->pv] *)
Module perturb2_vector.
Record t := mk {
  l_max_g : Z;
  l_max_pol_g : Z;
  l_max_ur : Z;
  index_pt2_monopole_g : Z;
  index_pt2_monopole_E : Z;
  index_pt2_monopole_B : Z;
  index_pt2_monopole_ur : Z;
  index_pt2_monopole_b : Z;
  index_pt2_monopole_cdm : Z
}.
End perturb2_vector.

(** [ppr2] *)
Module precision2.
Record t := mk { index_m : gmap Z Z }.
End precision2.

(** [ppt] *)
Module perturbs.
Record t := mk {
  index_qs_monopole_g : Z;
  index_qs_monopole_E : Z;
  index_qs_monopole_ur : Z
}.
End perturbs.

(** [ppt2] *)
Module perturbs2.
Record t := mk {
  lm_array : gmap Z (gmap Z Z);
  nlm_array : gmap Z (gmap Z (gmap Z Z));
  lm_array_quad : gmap Z (gmap Z Z);
  has_polarization2 : Z;
  c_minus : gmap Z (gmap Z double);
  c_plus : gmap Z (gmap Z double);
  d_minus : gmap Z (gmap Z double);
  d_plus : gmap Z (gmap Z double);
  d_zero : gmap Z (gmap Z double);
  index_k1_debug : Z;
  index_k2_debug : Z;
  index_k3_debug : Z
}.
End perturbs2.

(** [ppw2] *)
Module perturb2_workspace.
Record t := mk {
  pv : perturb2_vector.t;
  index_k1 : Z;
  index_k2 : Z;
  index_k3 : Z;
  rotation_1 : gmap Z double;
  rotation_1_minus : gmap Z double;
  rotation_2 : gmap Z double;
  rotation_2_minus : gmap Z double;
  c_minus_product_12 : gmap Z double;
  c_minus_product_21 : gmap Z double;
  c_plus_product_12 : gmap Z double;
  c_plus_product_21 : gmap Z double;
  c_minus_product_11 : gmap Z double;
  c_minus_product_22 : gmap Z double;
  c_plus_product_11 : gmap Z double;
  c_plus_product_22 : gmap Z double
}.
End perturb2_workspace.

(** Modelled from the spec: the constant [_FALSE_], which [common.h]
    defines and the macros only name.  [has_polarization2 == _FALSE_] is
    the spec's "polarization feature is disabled". *)
Definition _FALSE_ : Z := 0.

(** The least and the greatest [int]. *)
Definition INT_MIN : Z := -2147483648.
Definition INT_MAX : Z := 2147483647.

(** ** The macros of [perturbations2_macros.h]

    The macros are textual: they read [ppt], [ppt2], [ppr2], [ppw2], [y],
    [dy], [pvec_sources1] and [pvec_sources2] from the scope they are
    expanded in.  The section variables play that part.  Macro arguments
    are values: the embedding covers arguments that are variables, literals
    or parenthesised expressions, which the expansion cannot re-associate
    where a macro leaves an argument bare (as in [m-m1+1]). *)

Module P2.

Import perturb2_vector precision2 perturbs perturbs2 perturb2_workspace.

Section Macros.

Variable ppt : perturbs.t.
Variable ppt2 : perturbs2.t.
Variable ppr2 : precision2.t.
Variable ppw2 : perturb2_workspace.t.
Variables y dy : gmap Z double.
Variables pvec_sources1 pvec_sources2 : gmap Z double.

(** [abs] of the C library on [int]: [abs(INT_MIN)] overflows and comes
    back as [INT_MIN]. *)
Definition abs (m : Z) : Z := if m =? INT_MIN then INT_MIN else Z.abs m.

(** *** Shortcuts for 2nd-order moments *)

Definition lm (l m : Z) : option Z :=
  index_m ppr2 !! m ≫= λ im, Arr.get2 (lm_array ppt2) l im.

Definition nlm (n l m : Z) : option Z :=
  index_m ppr2 !! m ≫= λ im, Arr.get3 (nlm_array ppt2) n l im.

Definition lm_quad (l m : Z) : option Z :=
  Arr.get2 (lm_array_quad ppt2) l m.

Definition I (l m : Z) : option double :=
  if (abs m >? l) || (l <? 0) || (l >? l_max_g (pv ppw2))
  then Some zero
  else lm l m ≫= λ o, y !! (index_pt2_monopole_g (pv ppw2) + o).

Definition dI_at (l m : Z) : option Z :=
  lm l m ≫= λ o, Some (index_pt2_monopole_g (pv ppw2) + o).

Definition E (l m : Z) : option double :=
  if (has_polarization2 ppt2 =? _FALSE_) || (abs m >? l) || (l <? 0)
     || (l >? l_max_pol_g (pv ppw2))
  then Some zero
  else lm l m ≫= λ o, y !! (index_pt2_monopole_E (pv ppw2) + o).

Definition dE_at (l m : Z) : option Z :=
  lm l m ≫= λ o, Some (index_pt2_monopole_E (pv ppw2) + o).

Definition B (l m : Z) : option double :=
  if (has_polarization2 ppt2 =? _FALSE_) || (abs m >? l) || (l <? 0)
     || (l >? l_max_pol_g (pv ppw2))
  then Some zero
  else lm l m ≫= λ o, y !! (index_pt2_monopole_B (pv ppw2) + o).

Definition dB_at (l m : Z) : option Z :=
  lm l m ≫= λ o, Some (index_pt2_monopole_B (pv ppw2) + o).

Definition N (l m : Z) : option double :=
  if (abs m >? l) || (l >? l_max_ur (pv ppw2))
  then Some zero
  else lm l m ≫= λ o, y !! (index_pt2_monopole_ur (pv ppw2) + o).

Definition dN_at (l m : Z) : option Z :=
  lm l m ≫= λ o, Some (index_pt2_monopole_ur (pv ppw2) + o).

Definition b (n l m : Z) : option double :=
  if (abs m >? l) || (l <? 0)
  then Some zero
  else nlm n l m ≫= λ o, y !! (index_pt2_monopole_b (pv ppw2) + o).

Definition db_at (n l m : Z) : option Z :=
  nlm n l m ≫= λ o, Some (index_pt2_monopole_b (pv ppw2) + o).

Definition cdm (n l m : Z) : option double :=
  if (abs m >? l) || (l <? 0)
  then Some zero
  else nlm n l m ≫= λ o, y !! (index_pt2_monopole_cdm (pv ppw2) + o).

Definition dcdm_at (n l m : Z) : option Z :=
  nlm n l m ≫= λ o, Some (index_pt2_monopole_cdm (pv ppw2) + o).

(** The derivative macros expand to the lvalue [dy[...]]: read as a value
    they load the cell, on the left of [=] they store into it. *)
Definition load (at_ : option Z) : option double :=
  at_ ≫= λ i, dy !! i.

Definition store (at_ : option Z) (v : double) : option (gmap Z double) :=
  at_ ≫= λ i, dy !! i ≫= λ _, Some (<[i:=v]> dy).

Definition dI (l m : Z) := load (dI_at l m).
Definition dE (l m : Z) := load (dE_at l m).
Definition dB (l m : Z) := load (dB_at l m).
Definition dN (l m : Z) := load (dN_at l m).
Definition db (n l m : Z) := load (db_at n l m).
Definition dcdm (n l m : Z) := load (dcdm_at n l m).

Definition set_dI (l m : Z) := store (dI_at l m).
Definition set_dE (l m : Z) := store (dE_at l m).
Definition set_dB (l m : Z) := store (dB_at l m).
Definition set_dN (l m : Z) := store (dN_at l m).
Definition set_db (n l m : Z) := store (db_at n l m).
Definition set_dcdm (n l m : Z) := store (dcdm_at n l m).

(** *** Shortcuts for quadratic sources *)

Definition quad_coefficient : Z := 2.

(** *** Shortcuts for 1st-order moments *)

Definition rot_1 (l m : Z) : option double :=
  if (l <? 0) || (abs m >? l) then Some zero
  else if m <? 0 then lm_quad l (abs m) ≫= λ i, rotation_1_minus ppw2 !! i
  else lm_quad l m ≫= λ i, rotation_1 ppw2 !! i.

Definition rot_2 (l m : Z) : option double :=
  if (l <? 0) || (abs m >? l) then Some zero
  else if m <? 0 then lm_quad l (abs m) ≫= λ i, rotation_2_minus ppw2 !! i
  else lm_quad l m ≫= λ i, rotation_2 ppw2 !! i.

Definition I_1_tilde (l : Z) : option double :=
  if l <? 0 then Some zero
  else pvec_sources1 !! (index_qs_monopole_g ppt + l).

Definition I_2_tilde (l : Z) : option double :=
  if l <? 0 then Some zero
  else pvec_sources2 !! (index_qs_monopole_g ppt + l).

Definition E_1_tilde (l : Z) : option double :=
  if (l <? 0) || (has_polarization2 ppt2 =? _FALSE_) then Some zero
  else pvec_sources1 !! (index_qs_monopole_E ppt + l).

Definition E_2_tilde (l : Z) : option double :=
  if (l <? 0) || (has_polarization2 ppt2 =? _FALSE_) then Some zero
  else pvec_sources2 !! (index_qs_monopole_E ppt + l).

Definition N_1_tilde (l : Z) : option double :=
  if l <? 0 then Some zero
  else pvec_sources1 !! (index_qs_monopole_ur ppt + l).

Definition N_2_tilde (l : Z) : option double :=
  if l <? 0 then Some zero
  else pvec_sources2 !! (index_qs_monopole_ur ppt + l).

(** [(a)*(b)]: both operands are evaluated, then multiplied. *)
Definition times (a b : option double) : option double :=
  a ≫= λ x, b ≫= λ z, Some (Dbl.mul x z).

Definition I_1 (l m : Z) := times (rot_1 l m) (I_1_tilde l).
Definition I_2 (l m : Z) := times (rot_2 l m) (I_2_tilde l).
Definition E_1 (l m : Z) := times (rot_1 l m) (E_1_tilde l).
Definition E_2 (l m : Z) := times (rot_2 l m) (E_2_tilde l).
Definition N_1 (l m : Z) := times (rot_1 l m) (N_1_tilde l).
Definition N_2 (l m : Z) := times (rot_2 l m) (N_2_tilde l).

(** Coupling coefficients. *)
Definition coupling (tbl : gmap Z (gmap Z double)) (l m1 m : Z) : option double :=
  lm l m ≫= λ r, Arr.get2 tbl r (m - m1 + 1).

Definition c_minus := coupling (perturbs2.c_minus ppt2).
Definition c_plus := coupling (perturbs2.c_plus ppt2).
Definition d_minus := coupling (perturbs2.d_minus ppt2).
Definition d_plus := coupling (perturbs2.d_plus ppt2).
Definition d_zero := coupling (perturbs2.d_zero ppt2).

(** Summed coupling coefficients. *)
Definition product (cache : gmap Z double) (l m : Z) : option double :=
  lm l m ≫= λ i, cache !! i.

Definition c_minus_12 := product (c_minus_product_12 ppw2).
Definition c_minus_21 := product (c_minus_product_21 ppw2).
Definition c_plus_12 := product (c_plus_product_12 ppw2).
Definition c_plus_21 := product (c_plus_product_21 ppw2).
Definition c_minus_11 := product (c_minus_product_11 ppw2).
Definition c_minus_22 := product (c_minus_product_22 ppw2).
Definition c_plus_11 := product (c_plus_product_11 ppw2).
Definition c_plus_22 := product (c_plus_product_22 ppw2).

(** *** Debug shortcuts

    [fprintf (args)] appends the record [args] to the stream [out]. *)
Definition printf_k_debug (args : string) (out : list string) : list string :=
  if (index_k1 ppw2 =? index_k1_debug ppt2)
     && (index_k2 ppw2 =? index_k2_debug ppt2)
     && (index_k3 ppw2 =? index_k3_debug ppt2)
  then out ++ [args]
  else out.

End Macros.

End P2.

(** ** Species families

    The spec speaks of one accessor [get(family, l, m)] with a base offset,
    a lookup and a truncation order per family.  In the header each family
    has its own macro; the definitions below only dispatch to them.  The
    massive families take the radial order [n] as well. *)

Inductive family :=
| photon_temperature | photon_E | photon_B | neutrino | baryon_beta | cdm_beta.

Module Fam.

Import perturb2_vector precision2 perturbs perturbs2 perturb2_workspace.

Section Dispatch.

Variable ppt2 : perturbs2.t.
Variable ppr2 : precision2.t.
Variable ppw2 : perturb2_workspace.t.
Variables y dy : gmap Z double.

Definition massive (f : family) : bool :=
  match f with baryon_beta | cdm_beta => true | _ => false end.

Definition polarization (f : family) : bool :=
  match f with photon_E | photon_B => true | _ => false end.

(** The truncation order: the field the read macro compares [l] with.
    The massive hierarchy keeps the moments up to [2]. *)
Definition l_max (f : family) : Z :=
  match f with
  | photon_temperature => l_max_g (pv ppw2)
  | photon_E | photon_B => l_max_pol_g (pv ppw2)
  | neutrino => l_max_ur (pv ppw2)
  | baryon_beta | cdm_beta => 2
  end.

Definition base (f : family) : Z :=
  match f with
  | photon_temperature => index_pt2_monopole_g (pv ppw2)
  | photon_E => index_pt2_monopole_E (pv ppw2)
  | photon_B => index_pt2_monopole_B (pv ppw2)
  | neutrino => index_pt2_monopole_ur (pv ppw2)
  | baryon_beta => index_pt2_monopole_b (pv ppw2)
  | cdm_beta => index_pt2_monopole_cdm (pv ppw2)
  end.

Definition lookup (f : family) (n l m : Z) : option Z :=
  if massive f then P2.nlm ppt2 ppr2 n l m else P2.lm ppt2 ppr2 l m.

Definition get (f : family) (n l m : Z) : option double :=
  match f with
  | photon_temperature => P2.I ppt2 ppr2 ppw2 y l m
  | photon_E => P2.E ppt2 ppr2 ppw2 y l m
  | photon_B => P2.B ppt2 ppr2 ppw2 y l m
  | neutrino => P2.N ppt2 ppr2 ppw2 y l m
  | baryon_beta => P2.b ppt2 ppr2 ppw2 y n l m
  | cdm_beta => P2.cdm ppt2 ppr2 ppw2 y n l m
  end.

(** The cell of [dy] the derivative macro of the family names. *)
Definition d_at (f : family) (n l m : Z) : option Z :=
  match f with
  | photon_temperature => P2.dI_at ppt2 ppr2 ppw2 l m
  | photon_E => P2.dE_at ppt2 ppr2 ppw2 l m
  | photon_B => P2.dB_at ppt2 ppr2 ppw2 l m
  | neutrino => P2.dN_at ppt2 ppr2 ppw2 l m
  | baryon_beta => P2.db_at ppt2 ppr2 ppw2 n l m
  | cdm_beta => P2.dcdm_at ppt2 ppr2 ppw2 n l m
  end.

Definition d_get (f : family) (n l m : Z) : option double :=
  P2.load dy (d_at f n l m).

Definition d_set (f : family) (n l m : Z) (v : double) : option (gmap Z double) :=
  P2.store dy (d_at f n l m) v.

End Dispatch.

End Fam.

(** ** Setup of the index tables

    The functions that fill [ppr2->index_m], [ppt2->lm_array] and
    [ppt2->nlm_array] live in the solver, outside the header.  They are
    written here after the spec (sections 3 and 4.1): offsets are handed
    out in turn, degree by degree and order by order, starting at [0]. *)

Module Setup.

Import perturb2_vector precision2 perturbs perturbs2 perturb2_workspace.

(** The orders [-l, ..., l] of degree [l], and the degrees [0, ..., L]. *)
Definition m_range (l : Z) : list Z := seqZ (- l) (2 * l + 1).
Definition l_range (L : Z) : list Z := seqZ 0 (L + 1).

(** Modelled from the spec: the table [ppr2->index_m], whose setup is
    outside the header.  The spec addresses every order [m] in [-l..l]
    (section 4.1), so each order of [-L..L] gets a column, in turn. *)
Definition build_index_m (L : Z) : gmap Z Z :=
  list_to_map ((λ m, (m, m + L)) <$> m_range L).

(** Modelled from the spec: the inner loop of the setup, which the header
    does not hold.  One degree: the next free offset goes to each order in
    turn. *)
Fixpoint fill_row (im : gmap Z Z) (ms : list Z) (next : Z) (row : gmap Z Z)
  : gmap Z Z * Z :=
  match ms with
  | [] => (row, next)
  | m :: ms' =>
      match im !! m with
      | Some c => fill_row im ms' (next + 1) (<[c:=next]> row)
      | None => fill_row im ms' next row
      end
  end.

(** Modelled from the spec: the outer loop of the setup, which the header
    does not hold.  All degrees of one hierarchy, the counter running on. *)
Fixpoint fill_rows (im : gmap Z Z) (ls : list Z) (next : Z)
  (tbl : gmap Z (gmap Z Z)) : gmap Z (gmap Z Z) * Z :=
  match ls with
  | [] => (tbl, next)
  | l :: ls' =>
      let '(row, next') := fill_row im (m_range l) next ∅ in
      fill_rows im ls' next' (<[l:=row]> tbl)
  end.

(** Modelled from the spec: [build(l_max, family)] of section 4.1 for the
    massless hierarchies, whose code is outside the header.  It returns
    the table [lm_array] and the number of offsets handed out. *)
Definition build_lm (L : Z) : gmap Z (gmap Z Z) * Z :=
  fill_rows (build_index_m L) (l_range L) 0 ∅.

(** Modelled from the spec: the loop over the radial orders of the massive
    setup, which the header does not hold; each order takes the degrees
    [0..2]. *)
Fixpoint fill_planes (im : gmap Z Z) (ns : list Z) (next : Z)
  (tbl : gmap Z (gmap Z (gmap Z Z))) : gmap Z (gmap Z (gmap Z Z)) * Z :=
  match ns with
  | [] => (tbl, next)
  | n :: ns' =>
      let '(plane, next') := fill_rows im (l_range 2) next ∅ in
      fill_planes im ns' next' (<[n:=plane]> tbl)
  end.

(** Modelled from the spec: [build] of section 4.1 for the massive
    hierarchies ("the analogous count over n in {0,1,2} with l_max fixed
    at 2"), whose code is outside the header. *)
Definition build_nlm (L : Z) : gmap Z (gmap Z (gmap Z Z)) * Z :=
  fill_planes (build_index_m L) (seqZ 0 3) 0 ∅.

(** Modelled from the spec: [count] of section 4.1, the sum of [2l+1] over
    the degrees kept, once per radial order for a massive family. *)
Definition count (l_max : Z) : Z :=
  foldr Z.add 0 ((λ l, 2 * l + 1) <$> l_range l_max).

Definition count_massive : Z :=
  foldr Z.add 0 ((λ _ : Z, count 2) <$> seqZ 0 3).

(** The structures after setup for the largest degree [L]. *)
Definition with_tables (L : Z) (ppt2 : perturbs2.t) : perturbs2.t :=
  perturbs2.mk (build_lm L).1 (build_nlm L).1
    (lm_array_quad ppt2) (has_polarization2 ppt2)
    (perturbs2.c_minus ppt2) (perturbs2.c_plus ppt2)
    (perturbs2.d_minus ppt2) (perturbs2.d_plus ppt2) (perturbs2.d_zero ppt2)
    (index_k1_debug ppt2) (index_k2_debug ppt2) (index_k3_debug ppt2).

Definition index_table (L : Z) : precision2.t :=
  precision2.mk (build_index_m L).

(** Modelled from the spec: the valid index set of a family (section 3)
    and the size of its range.  A massless family has no radial order: its
    index set keeps [n = 0]. *)
Definition valid (ppw2 : perturb2_workspace.t) (f : family) (n l m : Z) : Prop :=
  0 ≤ l ≤ Fam.l_max ppw2 f ∧ - l ≤ m ≤ l
  ∧ if Fam.massive f then 0 ≤ n ≤ 2 else n = 0.

Definition family_count (ppw2 : perturb2_workspace.t) (f : family) : Z :=
  if Fam.massive f then count_massive else count (Fam.l_max ppw2 f).

Definition family_offsets (ppt2 : perturbs2.t) (ppr2 : precision2.t)
  (f : family) (n l : Z) : list (option Z) :=
  (λ m, Fam.lookup ppt2 ppr2 f n l m) <$> m_range l.

(** Modelled from the spec: the guarantee of section 4.1, [lookup] maps the
    valid index set of [f] one-to-one onto [0, count). *)
Definition bijection (ppw2 : perturb2_workspace.t) (f : family)
  (lookup : Z → Z → Z → option Z) (count : Z) : Prop :=
  (∀ n l m, valid ppw2 f n l m → ∃ o, lookup n l m = Some o ∧ 0 ≤ o < count)
  ∧ (∀ n l m n' l' m', valid ppw2 f n l m → valid ppw2 f n' l' m' →
       lookup n l m = lookup n' l' m' → n = n' ∧ l = l' ∧ m = m')
  ∧ (∀ o, 0 ≤ o < count → ∃ n l m, valid ppw2 f n l m ∧ lookup n l m = Some o).

End Setup.

(** ** Legs, first-order moments and coupling coefficients

    The header writes each macro twice, once per leg, and the coupling
    macros five times.  The dispatchers below name the copies, so that one
    statement covers them all. *)

Inductive leg := leg_1 | leg_2.
Inductive moment := moment_I | moment_E | moment_N.
Inductive coefficient := coef_c_minus | coef_c_plus | coef_d_minus | coef_d_plus | coef_d_zero.

Module Leg.

Import perturb2_vector precision2 perturbs perturbs2 perturb2_workspace.

Section Dispatch.

Variable ppt : perturbs.t.
Variable ppt2 : perturbs2.t.
Variable ppr2 : precision2.t.
Variable ppw2 : perturb2_workspace.t.
Variables pvec_sources1 pvec_sources2 : gmap Z double.

(** The table of the leg for [m >= 0] and its mirror for [m < 0]. *)
Definition table (g : leg) : gmap Z double :=
  match g with leg_1 => rotation_1 ppw2 | leg_2 => rotation_2 ppw2 end.

Definition mirror (g : leg) : gmap Z double :=
  match g with leg_1 => rotation_1_minus ppw2 | leg_2 => rotation_2_minus ppw2 end.

Definition rotation (g : leg) (l m : Z) : option double :=
  match g with
  | leg_1 => P2.rot_1 ppt2 ppw2 l m
  | leg_2 => P2.rot_2 ppt2 ppw2 l m
  end.

Definition tilde (x : moment) (g : leg) (l : Z) : option double :=
  match x, g with
  | moment_I, leg_1 => P2.I_1_tilde ppt pvec_sources1 l
  | moment_I, leg_2 => P2.I_2_tilde ppt pvec_sources2 l
  | moment_E, leg_1 => P2.E_1_tilde ppt ppt2 pvec_sources1 l
  | moment_E, leg_2 => P2.E_2_tilde ppt ppt2 pvec_sources2 l
  | moment_N, leg_1 => P2.N_1_tilde ppt pvec_sources1 l
  | moment_N, leg_2 => P2.N_2_tilde ppt pvec_sources2 l
  end.

Definition rotated (x : moment) (g : leg) (l m : Z) : option double :=
  match x, g with
  | moment_I, leg_1 => P2.I_1 ppt ppt2 ppw2 pvec_sources1 l m
  | moment_I, leg_2 => P2.I_2 ppt ppt2 ppw2 pvec_sources2 l m
  | moment_E, leg_1 => P2.E_1 ppt ppt2 ppw2 pvec_sources1 l m
  | moment_E, leg_2 => P2.E_2 ppt ppt2 ppw2 pvec_sources2 l m
  | moment_N, leg_1 => P2.N_1 ppt ppt2 ppw2 pvec_sources1 l m
  | moment_N, leg_2 => P2.N_2 ppt ppt2 ppw2 pvec_sources2 l m
  end.

Definition coupling_table (c : coefficient) : gmap Z (gmap Z double) :=
  match c with
  | coef_c_minus => perturbs2.c_minus ppt2
  | coef_c_plus => perturbs2.c_plus ppt2
  | coef_d_minus => perturbs2.d_minus ppt2
  | coef_d_plus => perturbs2.d_plus ppt2
  | coef_d_zero => perturbs2.d_zero ppt2
  end.

Definition coupling (c : coefficient) (l m1 m : Z) : option double :=
  match c with
  | coef_c_minus => P2.c_minus ppt2 ppr2 l m1 m
  | coef_c_plus => P2.c_plus ppt2 ppr2 l m1 m
  | coef_d_minus => P2.d_minus ppt2 ppr2 l m1 m
  | coef_d_plus => P2.d_plus ppt2 ppr2 l m1 m
  | coef_d_zero => P2.d_zero ppt2 ppr2 l m1 m
  end.

End Dispatch.

(** The second dimension of a coupling table has the three entries
    [0], [1] and [2].  The declaration of the tables is outside the
    header; the shape is a parameter of the statements about them. *)
Definition three_columns (tbl : gmap Z (gmap Z double)) : Prop :=
  ∀ r row, tbl !! r = Some row → ∀ j, is_Some (row !! j) ↔ 0 ≤ j ≤ 2.

End Leg.

(** ** The configuration structure of [parser.h]

    The header declares the structure [file_content] and the prototypes
    of the functions on it; the bodies are in the parser's source file.
    The structure is the header's; the functions are written after
    section 6 and scenario 3 of the spec. *)

Module Parser.

Definition _LINE_LENGTH_MAX_ : Z := 512.
Definition _ARGUMENT_LENGTH_MAX_ : Z := 256.

(** [typedef char FileArg[_ARGUMENT_LENGTH_MAX_]] *)
Abbreviation FileArg := string.

(** Modelled from the spec: the flag value [_TRUE_], which [common.h]
    defines, beside [_FALSE_] above. *)
Definition _TRUE_ : Z := 1.

Record file_content := mk {
  filename : string;
  size : Z;
  name : list FileArg;
  value : list FileArg;
  read : list Z;
  overwritten : list Z
}.

(** Modelled from the spec: [parser_read_file], whose body is outside the
    header.  The text of the file is taken as already split into its
    [name = value] lines; no entry has been read or overwritten yet. *)
Definition parser_read_file (fname : string) (lines : list (FileArg * FileArg))
  : file_content :=
  mk fname (Z.of_nat (length lines)) lines.*1 lines.*2
     (replicate (length lines) _FALSE_) (replicate (length lines) _FALSE_).

(** Modelled from the spec: the search by name shared by the functions
    below, whose bodies the header does not hold.  The subscript of the
    first entry called [nm]. *)
Fixpoint find (names : list FileArg) (nm : string) : option nat :=
  match names with
  | [] => None
  | n :: names' =>
      if decide (n = nm) then Some 0%nat else S <$> find names' nm
  end.

(** Modelled from the spec: [parser_overwrite_entry], whose body is
    outside the header.  The entry called [nm] takes the new value and is
    flagged as overwritten; the second component is [found]. *)
Definition parser_overwrite_entry (pfc : file_content) (nm : string)
  (new_value : FileArg) : file_content * bool :=
  match find (name pfc) nm with
  | Some i =>
      (mk (filename pfc) (size pfc) (name pfc) (<[i:=new_value]> (value pfc))
          (read pfc) (<[i:=_TRUE_]> (overwritten pfc)), true)
  | None => (pfc, false)
  end.

(** Modelled from the spec: a new entry at the end, neither read nor
    overwritten; part of the overlay below. *)
Definition append (pfc : file_content) (nm : string) (v : FileArg) : file_content :=
  mk (filename pfc) (size pfc + 1) (name pfc ++ [nm]) (value pfc ++ [v])
     (read pfc ++ [_FALSE_]) (overwritten pfc ++ [_FALSE_]).

(** Modelled from the spec: the overlay of a base file with an override
    file (section 6), whose code is outside the header.  Each entry of
    the override overwrites the entry of the same name, or is added when
    the base has none. *)
Definition overlay_entry (pfc : file_content) (e : FileArg * FileArg)
  : file_content :=
  let '(pfc', found) := parser_overwrite_entry pfc e.1 e.2 in
  if found then pfc' else append pfc e.1 e.2.

Definition overlay (base override : file_content) : file_content :=
  foldl overlay_entry base (zip (name override) (value override)).

(** Modelled from the spec: [parser_read_string], whose body is outside
    the header.  A lookup flags the entry as read and returns its value;
    [None] is "not found". *)
Definition parser_read_string (pfc : file_content) (nm : string)
  : file_content * option FileArg :=
  match find (name pfc) nm with
  | Some i =>
      match value pfc !! i with
      | Some v =>
          (mk (filename pfc) (size pfc) (name pfc) (value pfc)
              (<[i:=_TRUE_]> (read pfc)) (overwritten pfc), Some v)
      | None => (pfc, None)
      end
  | None => (pfc, None)
  end.

(** Modelled from the spec: the conversion of a value to an integer, part
    of [parser_read_int] below.  Decimal digits with an optional minus
    sign. *)
Definition digit (c : Ascii.ascii) : option Z :=
  let k := Z.of_nat (Ascii.nat_of_ascii c) in
  if (48 <=? k) && (k <=? 57) then Some (k - 48) else None.

Fixpoint digits (s : string) (acc : Z) : option Z :=
  match s with
  | EmptyString => Some acc
  | String c s' => digit c ≫= λ d, digits s' (10 * acc + d)
  end.

Definition parse_int (s : string) : option Z :=
  match s with
  | EmptyString => None
  | String "-"%char EmptyString => None
  | String "-"%char s' => Z.opp <$> digits s' 0
  | _ => digits s 0
  end.

(** Modelled from the spec: [parser_read_int], whose body is outside the
    header.  The outer [None] is the failure on a value that is not an
    integer; the inner one is "not found". *)
Definition parser_read_int (pfc : file_content) (nm : string)
  : option (file_content * option Z) :=
  match parser_read_string pfc nm with
  | (pfc', Some v) => parse_int v ≫= λ z, Some (pfc', Some z)
  | (pfc', None) => Some (pfc', None)
  end.

(** Modelled from the spec: a run of lookups by the caller, results
    dropped. *)
Definition consult (pfc : file_content) (queries : list string) : file_content :=
  foldl (λ p nm, (parser_read_string p nm).1) pfc queries.

(** Modelled from the spec: the two reports of section 6, the entries
    never consulted and the entries overwritten. *)
Definition flagged (flags : list Z) (b : Z) (names : list FileArg) : list FileArg :=
  (filter (λ e, e.2 = b) (zip names flags)).*1.

Definition never_consulted (pfc : file_content) : list FileArg :=
  flagged (read pfc) _FALSE_ (name pfc).

Definition overwritten_entries (pfc : file_content) : list FileArg :=
  flagged (overwritten pfc) _TRUE_ (name pfc).

(** The four arrays have the length of the array of names. *)
Definition wf (pfc : file_content) : Prop :=
  length (value pfc) = length (name pfc)
  ∧ length (read pfc) = length (name pfc)
  ∧ length (overwritten pfc) = length (name pfc).

(** What an operation keeps of the entry at subscript [i] called [nm]. *)
Definition keeps (nm : string) (i : nat) (pfc pfc' : file_content) : Prop :=
  wf pfc' ∧ find (name pfc') nm = Some i
  ∧ value pfc' !! i = value pfc !! i
  ∧ read pfc' !! i = read pfc !! i
  ∧ overwritten pfc' !! i = overwritten pfc !! i.

End Parser.

(** ** Concrete states

    The states the scenarios of the spec (section 8) and the examples
    below run on. *)

Module Scenario.

Import perturb2_vector precision2 perturbs perturbs2 perturb2_workspace.

(** All truncation orders at [2]; the families laid out one after the
    other in [y]: 9 cells for each massless family, 27 for each massive
    one. *)
Definition pv2 : perturb2_vector.t :=
  perturb2_vector.mk 2 2 2 0 9 18 27 36 63.

Definition blank2 : perturbs2.t :=
  perturbs2.mk ∅ ∅ ∅ 1 ∅ ∅ ∅ ∅ ∅ 0 0 0.

Definition blankw (v : perturb2_vector.t) : perturb2_workspace.t :=
  perturb2_workspace.mk v 0 0 0 ∅ ∅ ∅ ∅ ∅ ∅ ∅ ∅ ∅ ∅ ∅ ∅.

(** A massive table that also holds the moment [(n,l,m) = (0,3,0)], the
    order [0] in column [0], and a state buffer with [1.0] in the baryon
    cell of that moment. *)
Definition wide2 : perturbs2.t :=
  perturbs2.mk ∅ {[0 := {[3 := {[0 := 0]}]}]} ∅ 1 ∅ ∅ ∅ ∅ ∅ 0 0 0.

Definition column0 : precision2.t := precision2.mk {[0 := 0]}.

Definition y_baryon : gmap Z double := {[36 := one]}.

(** Polarization switched off, tables as set up for [L = 2]. *)
Definition unpolarized2 : perturbs2.t :=
  Setup.with_tables 2 (perturbs2.mk ∅ ∅ ∅ _FALSE_ ∅ ∅ ∅ ∅ ∅ 0 0 0).

(** Nine cells of state and of derivative for the photon temperature. *)
Definition y9 : gmap Z double := map_seqZ 0 (replicate 9 one).
Definition dy9 : gmap Z double := map_seqZ 0 (replicate 9 zero).

(** Truncation of the photon temperature at [1], below the tables. *)
Definition pv1 : perturb2_vector.t :=
  perturb2_vector.mk 1 1 1 0 9 18 27 36 63.

(** A coupling table with one row of three entries. *)
Definition coupling1 : gmap Z (gmap Z double) :=
  {[0 := map_seqZ 0 [one; one; one]]}.

Definition lm00 : perturbs2.t :=
  perturbs2.mk {[0 := {[0 := 0]}]} ∅ {[0 := {[0 := 0]}]} _FALSE_
    coupling1 coupling1 coupling1 coupling1 coupling1 0 0 0.

Definition ppt0 : perturbs.t := perturbs.mk 0 1 2.

(** First-order sources, all equal to [1.0]. *)
Definition sources_one : gmap Z double := map_seqZ 0 [one; one; one].

(** First-order sources whose temperature monopole is a NaN. *)
Definition sources_nan : gmap Z double := map_seqZ 0 [nan; one; one].

(** A rotation table holding the single factor of [(l,m) = (0,0)]. *)
Definition rotating (r : double) : perturb2_workspace.t :=
  perturb2_workspace.mk pv2 0 0 0 {[0 := r]} ∅ {[0 := r]} ∅ ∅ ∅ ∅ ∅ ∅ ∅ ∅ ∅.

(** Scenario 3: the base file, the override file, and their overlay. *)
Definition base_file : Parser.file_content :=
  Parser.parser_read_file "base.ini"
    [("truncation", "4"); ("tolerance", "1e-5")].

Definition override_file : Parser.file_content :=
  Parser.parser_read_file "override.ini" [("truncation", "6")].

(** Scenario 4: tables up to degree 2.  [lm_array_quad] numbers the
    orders [0..l] of each degree; every coupling row holds [0.5, 1, 2];
    the rotation factors of leg 1 are [0.5], those of leg 2 are [2]. *)
Definition half : double := S754_finite false 4503599627370496 (-53).
Definition two : double := S754_finite false 4503599627370496 (-51).

Definition quad2 : gmap Z (gmap Z Z) :=
  map_seqZ 0 [map_seqZ 0 [0]; map_seqZ 0 [1; 2]; map_seqZ 0 [3; 4; 5]].

Definition coupling9 : gmap Z (gmap Z double) :=
  map_seqZ 0 (replicate 9 (map_seqZ 0 [half; one; two])).

Definition triangle2 : perturbs2.t :=
  perturbs2.mk ∅ ∅ quad2 1 coupling9 coupling9 ∅ ∅ ∅ 0 0 0.

Definition rotated2 : perturb2_workspace.t :=
  perturb2_workspace.mk pv2 0 0 0
    (map_seqZ 0 (replicate 6 half)) (map_seqZ 0 (replicate 6 half))
    (map_seqZ 0 (replicate 6 two)) (map_seqZ 0 (replicate 6 two))
    ∅ ∅ ∅ ∅ ∅ ∅ ∅ ∅.

End Scenario.

(** ** The [sources] shortcut

    [sources(index_type)] reads two more fields of [ppt2], the array
    [sources] and the sizes [k3_size], and the local [index_tau]. *)

Module perturbs2_sources.
Record t := mk {
  sources : gmap Z (gmap Z (gmap Z (gmap Z double)));
  k3_size : gmap Z (gmap Z Z)
}.
End perturbs2_sources.

Module Src.

Import perturb2_workspace perturbs2_sources.

(** An arithmetic result brought back among the 32-bit [int]s. *)
Definition wrap (z : Z) : Z := (z - INT_MIN) mod 4294967296 + INT_MIN.

Section Macro.

Variable ppt2 : perturbs2_sources.t.
Variable ppw2 : perturb2_workspace.t.
Variable index_tau : Z.

(** The last subscript,
    [index_tau*ppt2->k3_size[ppw2->index_k1][ppw2->index_k2] + ppw2->index_k3],
    in [int] arithmetic: the product and the sum wrap around. *)
Definition sources_at : option Z :=
  Arr.get2 (k3_size ppt2) (index_k1 ppw2) (index_k2 ppw2) ≫= λ k,
  Some (wrap (wrap (index_tau * k) + index_k3 ppw2)).

Definition sources (index_type : Z) : option double :=
  sources ppt2 !! index_type ≫= λ a,
  Arr.get2 a (index_k1 ppw2) (index_k2 ppw2) ≫= λ row,
  sources_at ≫= λ i, row !! i.

End Macro.

(** The workspace with another [index_k3], the other fields kept. *)
Definition at_k3 (ppw2 : perturb2_workspace.t) (k3 : Z) : perturb2_workspace.t :=
  perturb2_workspace.mk (pv ppw2) (index_k1 ppw2) (index_k2 ppw2) k3
    (rotation_1 ppw2) (rotation_1_minus ppw2)
    (rotation_2 ppw2) (rotation_2_minus ppw2)
    (c_minus_product_12 ppw2) (c_minus_product_21 ppw2)
    (c_plus_product_12 ppw2) (c_plus_product_21 ppw2)
    (c_minus_product_11 ppw2) (c_minus_product_22 ppw2)
    (c_plus_product_11 ppw2) (c_plus_product_22 ppw2).

End Src.

(** ** Runs and bounds used by the further properties *)

Module Run.

(** A subscript above every one of [ks], and not below [1]. *)
Definition above (ks : list Z) : Z := 1 + foldr Z.max 0 ks.

(** The debug shortcut expanded once per record, in turn. *)
Definition printf_k_debug_run (ppt2 : perturbs2.t) (ppw2 : perturb2_workspace.t)
  (records : list string) (out : list string) : list string :=
  foldl (λ o args, P2.printf_k_debug ppt2 ppw2 args o) out records.

(** A table and a buffer that hold every multipole the read macro of a
    massless family lets through. *)
Definition covers (ppt2 : perturbs2.t) (ppr2 : precision2.t)
  (ppw2 : perturb2_workspace.t) (y : gmap Z double) (f : family) : Prop :=
  ∀ l m, 0 ≤ l ≤ Fam.l_max ppw2 f → Z.abs m ≤ l →
    ∃ o, P2.lm ppt2 ppr2 l m = Some o ∧ is_Some (y !! (Fam.base ppw2 f + o)).

(** A rotation cache that holds the factor of every [(l, j)] with
    [0 <= j <= l <= L], in the table and in its mirror. *)
Definition rotation_covers (ppt2 : perturbs2.t) (ppw2 : perturb2_workspace.t)
  (g : leg) (L : Z) : Prop :=
  ∀ l j, 0 ≤ j ≤ l → l ≤ L →
    ∃ i, P2.lm_quad ppt2 l j = Some i
         ∧ is_Some (Leg.table ppw2 g !! i) ∧ is_Some (Leg.mirror ppw2 g !! i).

(** A table and a buffer that hold every moment [(n,l,m)] of one radial
    order [n] with [0 <= l <= 2] and [|m| <= l], for a massive family. *)
Definition covers_massive (ppt2 : perturbs2.t) (ppr2 : precision2.t)
  (ppw2 : perturb2_workspace.t) (y : gmap Z double) (f : family) (n : Z) : Prop :=
  ∀ l m, 0 ≤ l ≤ 2 → Z.abs m ≤ l →
    ∃ o, P2.nlm ppt2 ppr2 n l m = Some o ∧ is_Some (y !! (Fam.base ppw2 f + o)).

(** A state buffer of 90 cells, the six families of [Scenario.pv2]. *)
Definition y90 : gmap Z double := map_seqZ 0 (replicate 90 one).

(** Tables that hold a column [INT_MIN]: in [index_m], in the row of
    degree [2] of [lm_array] and in the row of degree [0] of
    [lm_array_quad]; and a rotation cache with the mirrored factor [1.0]
    in the cell that column names. *)
Definition at_int_min : perturbs2.t :=
  perturbs2.mk {[2 := {[0 := 0]}]} ∅ {[0 := {[INT_MIN := 0]}]} 1
    ∅ ∅ ∅ ∅ ∅ 0 0 0.

Definition column_int_min : precision2.t := precision2.mk {[INT_MIN := 0]}.

Definition mirrored_one : perturb2_workspace.t :=
  perturb2_workspace.mk Scenario.pv2 0 0 0 ∅ {[0 := one]} ∅ {[0 := one]}
    ∅ ∅ ∅ ∅ ∅ ∅ ∅ ∅.

(** [65536] wavemodes per instant. *)
Definition sources_wide : perturbs2_sources.t :=
  perturbs2_sources.mk ∅ {[0 := {[0 := 65536]}]}.

(** Three instants of one source, two wavemodes [k3] each. *)
Definition sources2 : perturbs2_sources.t :=
  perturbs2_sources.mk
    {[0 := {[0 := {[0 := map_seqZ 0 [one; zero; one; zero; one; zero]]}]}]}
    {[0 := {[0 := 2]}]}.

(** The same rotation cache as [Scenario.rotated2], read through tables
    whose [lm_array_quad] has a further column [-1] in every row. *)
Definition quad2_wide : gmap Z (gmap Z Z) :=
  map_seqZ 0 [map_seqZ (-1) [7; 0]; map_seqZ (-1) [7; 1; 2];
              map_seqZ (-1) [7; 3; 4; 5]].

Definition triangle2_wide : perturbs2.t :=
  perturbs2.mk ∅ ∅ quad2_wide 1 Scenario.coupling9 Scenario.coupling9
    ∅ ∅ ∅ 0 0 0.

End Run.

(** * Properties *)

(** ** Doubles *)

Example mul_one_one : Dbl.mul Dbl.one Dbl.one = Dbl.one.
Proof. vm_compute. reflexivity. Qed.

(** Zero times a finite double is a zero, on either side. *)
Lemma mul_zero_l t : finite t = true → is_zero (Dbl.mul zero t) = true.
Proof. by destruct t. Qed.

Lemma mul_zero_r r : finite r = true → is_zero (Dbl.mul r zero) = true.
Proof. by destruct r. Qed.

Ltac zbool :=
  repeat match goal with
  | |- context [?a >? ?b] => destruct (Z.gtb_spec a b)
  | |- context [?a <? ?b] => destruct (Z.ltb_spec a b)
  | |- context [?a =? ?b] => destruct (Z.eqb_spec a b)
  end; cbn [orb andb].

(** ** The library's [abs] *)

Lemma abs_eq m : INT_MIN < m → P2.abs m = Z.abs m.
Proof. unfold P2.abs. intros H. destruct (Z.eqb_spec m INT_MIN); [lia|done]. Qed.

Lemma abs_le m : P2.abs m ≤ Z.abs m.
Proof.
  unfold P2.abs, INT_MIN. destruct (Z.eqb_spec m (-2147483648)); lia.
Qed.

(** ** The index tables of the setup *)

Module SetupFacts.

Import perturb2_vector precision2 perturbs perturbs2 perturb2_workspace.
Import Setup.

Lemma elem_of_m_range l m : m ∈ m_range l ↔ - l ≤ m ≤ l.
Proof. unfold m_range. rewrite elem_of_seqZ. lia. Qed.

Lemma index_m_keys L : ((λ m, (m, m + L)) <$> m_range L).*1 = m_range L.
Proof.
  rewrite <- list_fmap_compose.
  rewrite <- (list_fmap_id (m_range L)) at 2.
  by apply list_fmap_ext.
Qed.

Lemma index_m_in L m : - L ≤ m ≤ L → build_index_m L !! m = Some (m + L).
Proof.
  intros Hm. unfold build_index_m. apply elem_of_list_to_map_1.
  - rewrite index_m_keys. apply NoDup_seqZ.
  - apply list_elem_of_fmap. exists m. split; [done|]. by apply elem_of_m_range.
Qed.

Lemma index_m_out L m : ¬ (- L ≤ m ≤ L) → build_index_m L !! m = None.
Proof.
  intros Hm. unfold build_index_m. apply not_elem_of_list_to_map_1.
  rewrite index_m_keys, elem_of_m_range. done.
Qed.

(** A row filled over consecutive orders [a, a+1, ...]: the order [a+i]
    gets the offset [next+i] in its column, other columns are kept. *)
Lemma fill_row_seq L (k : nat) : ∀ a next row,
  - L ≤ a → a + Z.of_nat k - 1 ≤ L →
  let r := fill_row (build_index_m L) (seqZ a (Z.of_nat k)) next row in
  r.2 = next + Z.of_nat k
  ∧ (∀ m, a ≤ m < a + Z.of_nat k → r.1 !! (m + L) = Some (next + (m - a)))
  ∧ (∀ c, ¬ (a + L ≤ c < a + L + Z.of_nat k) → r.1 !! c = row !! c).
Proof.
  induction k as [|k IH]; intros a next row Ha Hk.
  - simpl. split; [lia|]. split; [intros; lia|done].
  - rewrite seqZ_cons by lia. simpl.
    rewrite index_m_in by lia.
    replace (Z.pred (Z.of_nat (S k))) with (Z.of_nat k) by lia.
    pose proof (IH (Z.succ a) (next + 1) (<[a + L:=next]> row)
                  ltac:(lia) ltac:(lia)) as HI.
    cbv zeta in HI. destruct HI as (H1 & H2 & H3).
    split; [lia|]. split.
    + intros m Hm. destruct (decide (m = a)) as [->|Hne].
      * rewrite H3 by lia. rewrite lookup_insert_eq. f_equal; lia.
      * rewrite H2 by lia. f_equal; lia.
    + intros c Hc. rewrite H3 by lia. rewrite lookup_insert_ne by lia. done.
Qed.

(** The row of degree [l]: [2l+1] offsets from [next] on. *)
Lemma fill_row_degree L l next :
  0 ≤ l ≤ L →
  let r := fill_row (build_index_m L) (m_range l) next ∅ in
  r.2 = next + (2 * l + 1)
  ∧ (∀ m, - l ≤ m ≤ l → r.1 !! (m + L) = Some (next + l + m))
  ∧ (∀ m, ¬ (- l ≤ m ≤ l) → r.1 !! (m + L) = None).
Proof.
  intros Hl. unfold m_range.
  pose proof (fill_row_seq L (Z.to_nat (2 * l + 1)) (- l) next ∅) as H.
  cbv zeta in H. rewrite Z2Nat.id in H by lia.
  destruct H as (H1 & H2 & H3); [lia|lia|].
  cbv zeta. split; [lia|]. split.
  - intros m Hm. rewrite H2 by lia. f_equal; lia.
  - intros m Hm. rewrite H3 by lia. apply lookup_empty.
Qed.

(** A table filled over consecutive degrees [a, a+1, ...], the counter at
    [s + a*a] when degree [a] starts. *)
Lemma fill_rows_seq L s (k : nat) : ∀ a tbl,
  0 ≤ a → a + Z.of_nat k - 1 ≤ L →
  let r := fill_rows (build_index_m L) (seqZ a (Z.of_nat k)) (s + a * a) tbl in
  r.2 = s + (a + Z.of_nat k) * (a + Z.of_nat k)
  ∧ (∀ l m, a ≤ l < a + Z.of_nat k → - l ≤ m ≤ l →
       Arr.get2 r.1 l (m + L) = Some (s + l * l + l + m))
  ∧ (∀ l m, a ≤ l < a + Z.of_nat k → ¬ (- l ≤ m ≤ l) →
       Arr.get2 r.1 l (m + L) = None)
  ∧ (∀ l, ¬ (a ≤ l < a + Z.of_nat k) → r.1 !! l = tbl !! l).
Proof.
  induction k as [|k IH]; intros a tbl Ha Hk.
  - simpl. split; [lia|]. split; [intros; lia|]. split; [intros; lia|done].
  - rewrite seqZ_cons by lia. simpl.
    pose proof (fill_row_degree L a (s + a * a) ltac:(lia)) as HR.
    cbv zeta in HR.
    destruct (fill_row (build_index_m L) (m_range a) (s + a * a) ∅)
      as [row next'] eqn:Hrow.
    destruct HR as (R1 & R2 & R3). simpl in R1, R2, R3. subst next'.
    replace (Z.pred (Z.of_nat (S k))) with (Z.of_nat k) by lia.
    replace (s + a * a + (2 * a + 1)) with (s + Z.succ a * Z.succ a) by lia.
    pose proof (IH (Z.succ a) (<[a:=row]> tbl) ltac:(lia) ltac:(lia)) as HI.
    cbv zeta in HI. destruct HI as (H1 & H2 & H3 & H4).
    split; [rewrite H1; lia|]. split; [|split].
    + intros l m Hl Hm. destruct (decide (l = a)) as [->|Hne].
      * unfold Arr.get2. rewrite H4 by lia. rewrite lookup_insert_eq. simpl.
        rewrite R2 by lia. done.
      * apply H2; lia.
    + intros l m Hl Hm. destruct (decide (l = a)) as [->|Hne].
      * unfold Arr.get2. rewrite H4 by lia. rewrite lookup_insert_eq. simpl.
        by apply R3.
      * apply H3; [lia|done].
    + intros l Hl. rewrite H4 by lia. rewrite lookup_insert_ne by lia. done.
Qed.

Lemma build_lm_spec L :
  0 ≤ L →
  (build_lm L).2 = (L + 1) * (L + 1)
  ∧ (∀ l m, 0 ≤ l ≤ L → - l ≤ m ≤ l →
       Arr.get2 (build_lm L).1 l (m + L) = Some (l * l + l + m))
  ∧ (∀ l m, 0 ≤ l ≤ L → ¬ (- l ≤ m ≤ l) →
       Arr.get2 (build_lm L).1 l (m + L) = None).
Proof.
  intros HL. unfold build_lm, l_range.
  pose proof (fill_rows_seq L 0 (Z.to_nat (L + 1)) 0 ∅ ltac:(lia) ltac:(lia)) as H.
  cbv zeta in H. rewrite Z2Nat.id in H by lia. change (0 + 0 * 0) with 0 in H.
  destruct H as (H1 & H2 & H3 & _).
  split; [rewrite H1; lia|]. split.
  - intros l m Hl Hm. rewrite H2 by lia. f_equal; lia.
  - intros l m Hl Hm. apply H3; [lia|done].
Qed.

(** One radial order of the massive table: nine offsets from [s] on. *)
Lemma fill_plane_spec L s :
  2 ≤ L →
  let r := fill_rows (build_index_m L) (l_range 2) s ∅ in
  r.2 = s + 9
  ∧ (∀ l m, 0 ≤ l ≤ 2 → - l ≤ m ≤ l →
       Arr.get2 r.1 l (m + L) = Some (s + l * l + l + m)).
Proof.
  intros HL.
  pose proof (fill_rows_seq L s 3 0 ∅ ltac:(lia) ltac:(lia)) as H.
  cbv zeta in H. replace (s + 0 * 0) with s in H by lia.
  destruct H as (H1 & H2 & _). cbv zeta. unfold l_range.
  change (2 + 1) with (Z.of_nat 3).
  split; [rewrite H1; lia|].
  intros l m Hl Hm. apply H2; lia.
Qed.

Lemma build_nlm_spec L :
  2 ≤ L →
  (build_nlm L).2 = 27
  ∧ (∀ n l m, 0 ≤ n ≤ 2 → 0 ≤ l ≤ 2 → - l ≤ m ≤ l →
       Arr.get3 (build_nlm L).1 n l (m + L) = Some (9 * n + l * l + l + m)).
Proof.
  intros HL. unfold build_nlm.
  change (seqZ 0 3) with [0; 1; 2]. cbn [fill_planes].
  pose proof (fill_plane_spec L 0 HL) as P0. cbv zeta in P0.
  destruct (fill_rows (build_index_m L) (l_range 2) 0 ∅) as [p0 n0].
  destruct P0 as [E0 P0]. simpl in E0, P0. subst n0.
  pose proof (fill_plane_spec L (0 + 9) HL) as P1. cbv zeta in P1.
  destruct (fill_rows (build_index_m L) (l_range 2) (0 + 9) ∅) as [p1 n1].
  destruct P1 as [E1 P1]. simpl in E1, P1. subst n1.
  pose proof (fill_plane_spec L (0 + 9 + 9) HL) as P2'. cbv zeta in P2'.
  destruct (fill_rows (build_index_m L) (l_range 2) (0 + 9 + 9) ∅) as [p2 n2].
  destruct P2' as [E2 P2']. simpl in E2, P2'. subst n2.
  cbn [fst snd]. split; [done|].
  intros n l m Hn Hl Hm. unfold Arr.get3.
  assert (n = 0 ∨ n = 1 ∨ n = 2) as [->|[->| ->]] by lia.
  - rewrite lookup_insert_ne by done. rewrite lookup_insert_ne by done.
    rewrite lookup_insert_eq. simpl. rewrite P0 by lia. f_equal; lia.
  - rewrite lookup_insert_ne by done. rewrite lookup_insert_eq. simpl.
    rewrite P1 by lia. f_equal; lia.
  - rewrite lookup_insert_eq. simpl. rewrite P2' by lia. f_equal; lia.
Qed.

Section Built.

Variable L : Z.
Variable ppt2 : perturbs2.t.

(** The offset of a massless multipole after setup. *)
Lemma lm_built l m :
  0 ≤ l ≤ L → - l ≤ m ≤ l → P2.lm (with_tables L ppt2) (index_table L) l m = Some (l * l + l + m).
Proof.
  intros Hl Hm. unfold P2.lm. simpl.
  rewrite index_m_in by lia. simpl.
  apply build_lm_spec; lia.
Qed.

(** The offset of a massive moment after setup. *)
Lemma nlm_built n l m :
  2 ≤ L → 0 ≤ n ≤ 2 → 0 ≤ l ≤ 2 → - l ≤ m ≤ l →
  P2.nlm (with_tables L ppt2) (index_table L) n l m
  = Some (9 * n + l * l + l + m).
Proof.
  intros HL Hn Hl Hm. unfold P2.nlm. simpl.
  rewrite index_m_in by lia. simpl.
  apply build_nlm_spec; lia.
Qed.

End Built.

Lemma sum_odd (k : nat) : ∀ a,
  foldr Z.add 0 ((λ l, 2 * l + 1) <$> seqZ a (Z.of_nat k))
  = (a + Z.of_nat k) * (a + Z.of_nat k) - a * a.
Proof.
  induction k as [|k IH]; intros a.
  - simpl. lia.
  - rewrite seqZ_cons by lia. simpl.
    replace (Z.pred (Z.of_nat (S k))) with (Z.of_nat k) by lia.
    rewrite IH. lia.
Qed.

Lemma count_closed l_max : 0 ≤ l_max → count l_max = (l_max + 1) * (l_max + 1).
Proof.
  intros H. unfold count, l_range.
  rewrite <- (Z2Nat.id (l_max + 1)) at 1 by lia.
  rewrite sum_odd. lia.
Qed.

Lemma count_massive_closed : count_massive = 27.
Proof. reflexivity. Qed.

(** The degree is recovered from an offset: [l*l <= o < (l+1)*(l+1)]. *)
Lemma offset_degree l m l' m' :
  0 ≤ l → - l ≤ m ≤ l → 0 ≤ l' → - l' ≤ m' ≤ l' →
  l * l + l + m = l' * l' + l' + m' → l = l' ∧ m = m'.
Proof.
  intros Hl Hm Hl' Hm' Heq.
  assert (l = l') as -> by nia. split; [done|lia].
Qed.

(** After setup every family's lookup has a closed form on its index set. *)
Lemma lookup_built L ppt2 ppw2 f n l m :
  Fam.l_max ppw2 f ≤ L → valid ppw2 f n l m →
  Fam.lookup (with_tables L ppt2) (index_table L) f n l m
  = Some (9 * n + l * l + l + m).
Proof.
  intros HL (Hl & Hm & Hn). unfold Fam.lookup.
  destruct (Fam.massive f) eqn:Hf.
  - assert (Fam.l_max ppw2 f = 2) as E2 by (by destruct f).
    rewrite E2 in *. apply nlm_built; lia.
  - subst n. rewrite lm_built by lia. f_equal; lia.
Qed.

Lemma family_count_closed ppw2 f :
  0 ≤ Fam.l_max ppw2 f →
  family_count ppw2 f
  = (if Fam.massive f then 3 else 1) * ((Fam.l_max ppw2 f + 1) * (Fam.l_max ppw2 f + 1)).
Proof.
  intros H. unfold family_count. destruct (Fam.massive f) eqn:Hf.
  - assert (Fam.l_max ppw2 f = 2) as -> by (by destruct f). reflexivity.
  - rewrite count_closed by done. lia.
Qed.

(** Two valid indices with the same offset are the same index. *)
Lemma offset_index ppw2 f n l m n' l' m' :
  valid ppw2 f n l m → valid ppw2 f n' l' m' →
  9 * n + l * l + l + m = 9 * n' + l' * l' + l' + m' →
  n = n' ∧ l = l' ∧ m = m'.
Proof.
  intros (Hl & Hm & Hn) (Hl' & Hm' & Hn') Heq.
  destruct (Fam.massive f) eqn:Hf.
  - assert (Fam.l_max ppw2 f = 2) as E2 by (by destruct f). rewrite E2 in *.
    assert (0 ≤ l * l + l + m < 9) by nia.
    assert (0 ≤ l' * l' + l' + m' < 9) by nia.
    assert (n = n') as -> by lia. split; [done|].
    apply offset_degree; lia.
  - subst n n'. split; [done|]. apply offset_degree; lia.
Qed.

End SetupFacts.

(** ** The configuration entries under overlay and lookup *)

Module ParserFacts.

Import Parser.

Lemma find_Some names nm i : find names nm = Some i → names !! i = Some nm.
Proof.
  revert i. induction names as [|n names IH]; intros i; simpl; [done|].
  case_decide as Hn.
  - intros [= <-]. by subst.
  - destruct (find names nm) as [k|]; [|done]. intros [= <-]. by apply IH.
Qed.

Lemma find_elem names nm : nm ∈ names → is_Some (find names nm).
Proof.
  induction names as [|n names IH]; [by intros ?%elem_of_nil|].
  intros Hin. simpl. case_decide as Hn; [by eexists|].
  apply elem_of_cons in Hin as [->|Hin]; [done|].
  destruct (IH Hin) as [k ->]. by eexists.
Qed.

Lemma find_app names more nm i :
  find names nm = Some i → find (names ++ more) nm = Some i.
Proof.
  revert i. induction names as [|n names IH]; intros i; simpl; [done|].
  case_decide; [done|].
  destruct (find names nm) as [k|]; [|done]. intros [= <-].
  by rewrite (IH k).
Qed.

Lemma find_apart names n nm k i :
  find names n = Some k → find names nm = Some i → n ≠ nm → k ≠ i.
Proof.
  intros Hk%find_Some Hi%find_Some Hne ->. congruence.
Qed.

Lemma wf_read_file fname lines : wf (parser_read_file fname lines).
Proof.
  unfold wf. simpl. by rewrite !length_fmap, !length_replicate.
Qed.

Lemma overlay_entry_other pfc e nm i :
  wf pfc → find (name pfc) nm = Some i → e.1 ≠ nm →
  keeps nm i pfc (overlay_entry pfc e).
Proof.
  intros (Hv & Hr & Ho) Hi Hne.
  pose proof (lookup_lt_Some _ _ _ (find_Some _ _ _ Hi)) as Hlt.
  unfold overlay_entry, parser_overwrite_entry.
  destruct (find (name pfc) e.1) as [k|] eqn:Hk.
  - pose proof (find_apart _ _ _ _ _ Hk Hi Hne) as Hki.
    repeat split; simpl; rewrite ?length_insert; try done;
      by apply list_lookup_insert_ne.
  - repeat split; simpl; rewrite ?length_app; simpl; try lia.
    + by apply find_app.
    + apply lookup_app_l. lia.
    + apply lookup_app_l. lia.
    + apply lookup_app_l. lia.
Qed.

Lemma overlay_entry_same pfc nm v i :
  wf pfc → find (name pfc) nm = Some i →
  let pfc' := overlay_entry pfc (nm, v) in
  wf pfc' ∧ find (name pfc') nm = Some i
  ∧ value pfc' !! i = Some v
  ∧ overwritten pfc' !! i = Some _TRUE_
  ∧ read pfc' !! i = read pfc !! i.
Proof.
  intros (Hv & Hr & Ho) Hi.
  pose proof (lookup_lt_Some _ _ _ (find_Some _ _ _ Hi)) as Hlt.
  unfold overlay_entry, parser_overwrite_entry. simpl. rewrite Hi. simpl.
  repeat split; simpl; rewrite ?length_insert; try done;
    apply list_lookup_insert_eq; lia.
Qed.

Lemma keeps_trans nm i a b c : keeps nm i a b → keeps nm i b c → keeps nm i a c.
Proof.
  intros (_ & _ & V1 & R1 & O1) (W & F & V2 & R2 & O2).
  repeat split; try apply W; try done; congruence.
Qed.

Lemma overlay_others nm i (es : list (FileArg * FileArg)) : ∀ pfc,
  wf pfc → find (name pfc) nm = Some i → nm ∉ es.*1 →
  keeps nm i pfc (foldl overlay_entry pfc es).
Proof.
  induction es as [|e es IH]; intros pfc Hwf Hi Hnot; simpl.
  - by repeat split; try apply Hwf.
  - rewrite fmap_cons, not_elem_of_cons in Hnot. destruct Hnot as [Hne Hnot].
    pose proof (overlay_entry_other pfc e nm i Hwf Hi ltac:(done)) as Hk.
    eapply keeps_trans; [exact Hk|].
    apply IH; [apply Hk|apply Hk|done].
Qed.

Lemma overlay_sets nm v i (es : list (FileArg * FileArg)) : ∀ pfc,
  wf pfc → find (name pfc) nm = Some i → NoDup es.*1 → (nm, v) ∈ es →
  let pfc' := foldl overlay_entry pfc es in
  wf pfc' ∧ find (name pfc') nm = Some i
  ∧ value pfc' !! i = Some v
  ∧ overwritten pfc' !! i = Some _TRUE_
  ∧ read pfc' !! i = read pfc !! i.
Proof.
  induction es as [|e es IH]; intros pfc Hwf Hi Hnd Hin; simpl.
  - by apply elem_of_nil in Hin.
  - rewrite fmap_cons in Hnd. apply NoDup_cons in Hnd as [Hfresh Hnd].
    apply elem_of_cons in Hin as [<-|Hin].
    + destruct (overlay_entry_same pfc nm v i Hwf Hi) as (W & F & V & O & R).
      destruct (overlay_others nm i es _ W F Hfresh) as (W' & F' & V' & R' & O').
      repeat split; try apply W'; congruence.
    + assert (e.1 ≠ nm) as Hne.
      { intros Heq. apply Hfresh. rewrite Heq.
        apply (list_elem_of_fmap_2 fst _ _ Hin). }
      destruct (overlay_entry_other pfc e nm i Hwf Hi Hne) as (W & F & V & R & O).
      destruct (IH _ W F Hnd Hin) as (W' & F' & V' & O' & R').
      repeat split; try apply W'; congruence.
Qed.

Lemma read_string_other pfc q nm i :
  wf pfc → find (name pfc) nm = Some i → q ≠ nm →
  keeps nm i pfc (parser_read_string pfc q).1.
Proof.
  intros Hwf Hi Hne. unfold parser_read_string.
  destruct (find (name pfc) q) as [k|] eqn:Hk;
    [|by repeat split; try apply Hwf].
  destruct (value pfc !! k); [|by repeat split; try apply Hwf].
  pose proof (find_apart _ _ _ _ _ Hk Hi Hne) as Hki.
  destruct Hwf as (Hv & Hr & Ho).
  repeat split; simpl; rewrite ?length_insert; try done.
  by apply list_lookup_insert_ne.
Qed.

Lemma consult_others nm i (qs : list string) : ∀ pfc,
  wf pfc → find (name pfc) nm = Some i → nm ∉ qs →
  keeps nm i pfc (consult pfc qs).
Proof.
  unfold consult.
  induction qs as [|q qs IH]; intros pfc Hwf Hi Hnot; simpl.
  - by repeat split; try apply Hwf.
  - rewrite not_elem_of_cons in Hnot. destruct Hnot as [Hne Hnot].
    pose proof (read_string_other pfc q nm i Hwf Hi ltac:(done)) as Hk.
    eapply keeps_trans; [exact Hk|].
    apply IH; [apply Hk|apply Hk|done].
Qed.

Lemma elem_of_flagged flags b names nm j :
  names !! j = Some nm → flags !! j = Some b → nm ∈ flagged flags b names.
Proof.
  intros Hn Hf. unfold flagged.
  apply (list_elem_of_fmap_2 fst _ (nm, b)).
  apply list_elem_of_filter. split; [done|].
  apply (list_elem_of_lookup_2 _ j).
  apply lookup_zip_with_Some. by exists nm, b.
Qed.

End ParserFacts.

(** ** The claims *)

Import perturb2_vector precision2 perturbs perturbs2 perturb2_workspace.

(** C1, as amended: for every integer pair [(l,m)] with [m > INT_MIN], the
    read accessor of a massless family (photon temperature, E, B,
    neutrino) returns 0 whenever [l < 0], [|m| > l], [l > l_max(family)]
    or, for E and B, polarization is disabled; the read accessor of a
    massive family (baryon, cdm) returns 0 whenever [l < 0] or [|m| > l],
    and does not compare [l] with a truncation order.  In every other case
    the accessor returns the state-buffer entry at
    [base(family) + lookup(l,m)]. *)
Theorem get_bounded (ppt2 : perturbs2.t) (ppr2 : precision2.t)
    (ppw2 : perturb2_workspace.t) (y : gmap Z double)
    (f : family) (n l m : Z) :
  INT_MIN < m →
  (l < 0 ∨ Z.abs m > l
   ∨ (Fam.massive f = false ∧ l > Fam.l_max ppw2 f)
   ∨ (Fam.polarization f = true ∧ has_polarization2 ppt2 = _FALSE_) →
   Fam.get ppt2 ppr2 ppw2 y f n l m = Some zero)
  ∧ (0 ≤ l → Z.abs m ≤ l →
     (Fam.massive f = false → l ≤ Fam.l_max ppw2 f) →
     (Fam.polarization f = true → has_polarization2 ppt2 ≠ _FALSE_) →
     Fam.get ppt2 ppr2 ppw2 y f n l m
     = (Fam.lookup ppt2 ppr2 f n l m ≫= λ o, y !! (Fam.base ppw2 f + o))).
Proof.
  intros Hmin. pose proof (abs_eq m Hmin) as Ha. split.
  - intros H.
    destruct f; cbn [Fam.get Fam.massive Fam.polarization Fam.l_max] in *;
      unfold P2.I, P2.E, P2.B, P2.N, P2.b, P2.cdm; rewrite Ha; zbool;
      try reflexivity; exfalso;
      destruct H as [H|[H|[[? H]|[? H]]]]; try discriminate; lia.
  - intros Hl Hm Hmax Hpol.
    destruct f; cbn [Fam.get Fam.massive Fam.polarization Fam.l_max Fam.lookup Fam.base] in *;
      unfold P2.I, P2.E, P2.B, P2.N, P2.b, P2.cdm; rewrite Ha; zbool;
      try reflexivity; exfalso;
      try (specialize (Hmax eq_refl)); try (specialize (Hpol eq_refl));
      try lia; try done.
Qed.

(** C1 on the first scenario of the spec: photon temperature with
    [l_max = 2], read above the truncation order and inside it. *)
Lemma get_bounded_witness :
  (INT_MIN < 0 ∧ INT_MIN < -1)
  ∧ 3 > Fam.l_max (Scenario.blankw Scenario.pv2) photon_temperature
  ∧ Fam.get (Setup.with_tables 2 Scenario.blank2) (Setup.index_table 2)
      (Scenario.blankw Scenario.pv2) Scenario.y9 photon_temperature 0 3 0
    = Some zero
  ∧ Fam.get (Setup.with_tables 2 Scenario.blank2) (Setup.index_table 2)
      (Scenario.blankw Scenario.pv2) Scenario.y9 photon_temperature 0 1 (-1)
    = (Fam.lookup (Setup.with_tables 2 Scenario.blank2) (Setup.index_table 2)
         photon_temperature 0 1 (-1) ≫= λ o,
       Scenario.y9 !! (Fam.base (Scenario.blankw Scenario.pv2) photon_temperature + o)).
Proof.
  assert (H0 : INT_MIN < 0) by (unfold INT_MIN; lia).
  assert (H1 : INT_MIN < -1) by (unfold INT_MIN; lia).
  split; [done|]. split; [simpl; lia|]. split.
  - apply (proj1 (get_bounded (Setup.with_tables 2 Scenario.blank2)
                    (Setup.index_table 2) (Scenario.blankw Scenario.pv2)
                    Scenario.y9 photon_temperature 0 3 0 H0)).
    right. right. left. split; [reflexivity|simpl; lia].
  - apply (proj2 (get_bounded (Setup.with_tables 2 Scenario.blank2)
                    (Setup.index_table 2) (Scenario.blankw Scenario.pv2)
                    Scenario.y9 photon_temperature 0 1 (-1) H1)).
    + lia.
    + simpl; lia.
    + intros _. simpl. lia.
    + intros H. discriminate H.
Defined.

(** C1, counterexample: the baryon accessor at [(n,l,m) = (0,3,0)], above
    the truncation order [2] of the massive hierarchy, does not return 0.
    With a table that holds the moment it returns the state-buffer entry
    (here [1.0]).  And at [(l,m) = (2, INT_MIN)], where [|m| > l], the
    photon temperature does not return 0 either: [abs(m) > l] is false
    there and the macro goes on to [index_m[INT_MIN]], outside the table
    of the setup, or to the state buffer when the tables hold that
    column. *)
Lemma get_not_zero :
  (3 > Fam.l_max (Scenario.blankw Scenario.pv2) baryon_beta
   ∧ Fam.get Scenario.wide2 Scenario.column0 (Scenario.blankw Scenario.pv2)
       Scenario.y_baryon baryon_beta 0 3 0 = Some one
   ∧ Fam.get Scenario.wide2 Scenario.column0 (Scenario.blankw Scenario.pv2)
       Scenario.y_baryon baryon_beta 0 3 0 ≠ Some zero)
  ∧ (Z.abs INT_MIN > 2
     ∧ Fam.get (Setup.with_tables 2 Scenario.blank2) (Setup.index_table 2)
         (Scenario.blankw Scenario.pv2) Scenario.y9 photon_temperature
         0 2 INT_MIN = None
     ∧ Fam.get Run.at_int_min Run.column_int_min
         (Scenario.blankw Scenario.pv2) Scenario.y9 photon_temperature
         0 2 INT_MIN = Some one).
Proof.
  split.
  - split; [simpl; lia|]. split; [by vm_compute|]. by vm_compute.
  - split; [by vm_compute|]. split; by vm_compute.
Qed.

(** With the tables of the setup, which stop at degree [2], the call
    [b(0,3,0)] reads outside the table. *)
Example get_massive_outside_table :
  Fam.get (Setup.with_tables 2 Scenario.blank2) (Setup.index_table 2)
    (Scenario.blankw Scenario.pv2) Scenario.y_baryon baryon_beta 0 3 0 = None.
Proof. by vm_compute. Qed.

(** C2, as amended: for each leg and every pair [(l,m)] of [int]s with
    [m > INT_MIN], [rotation(leg,l,m)] is 0 if [l < 0] or [|m| > l]; for a
    valid [(l,m)] with [m >= 0] it is the entry of the leg's table at
    [lm_quad(l,m)]; for a valid [(l,m)] with [m < 0] it is the entry of the
    leg's mirrored table at [lm_quad(l,|m|)]; so for valid [l] and [m > 0],
    [rotation(leg,l,-m)] is the mirrored-table value at [(l,m)]. *)
Theorem rotation_cases (ppt2 : perturbs2.t) (ppw2 : perturb2_workspace.t)
    (g : leg) (l m : Z) :
  INT_MIN < m ≤ INT_MAX →
  (l < 0 ∨ Z.abs m > l → Leg.rotation ppt2 ppw2 g l m = Some zero)
  ∧ (0 ≤ l → Z.abs m ≤ l → 0 ≤ m →
     Leg.rotation ppt2 ppw2 g l m
     = (P2.lm_quad ppt2 l m ≫= λ i, Leg.table ppw2 g !! i))
  ∧ (0 ≤ l → Z.abs m ≤ l → m < 0 →
     Leg.rotation ppt2 ppw2 g l m
     = (P2.lm_quad ppt2 l (Z.abs m) ≫= λ i, Leg.mirror ppw2 g !! i))
  ∧ (0 < m ≤ l →
     Leg.rotation ppt2 ppw2 g l (- m)
     = (P2.lm_quad ppt2 l m ≫= λ i, Leg.mirror ppw2 g !! i)).
Proof.
  intros [Hmin Hmax]. pose proof (abs_eq m Hmin) as Ha.
  pose proof (abs_eq (- m) ltac:(unfold INT_MIN, INT_MAX in *; lia)) as Ha'.
  repeat split; intros;
    destruct g; cbn [Leg.rotation Leg.table Leg.mirror];
    unfold P2.rot_1, P2.rot_2; rewrite ?Ha, ?Ha';
    zbool; try reflexivity; try lia.
  all: replace (Z.abs (- m)) with m by lia; reflexivity.
Qed.

(** C2 on the tables of the fourth scenario: outside validity at
    [(l,m) = (1,2)], mirrored at [(l,m) = (2,-1)]. *)
Lemma rotation_cases_witness :
  (INT_MIN < 2 ≤ INT_MAX ∧ INT_MIN < 1 ≤ INT_MAX)
  ∧ (Z.abs 2 > 1
     ∧ Leg.rotation Scenario.triangle2 Scenario.rotated2 leg_1 1 2 = Some zero)
  ∧ (0 < 1 ≤ 2
     ∧ Leg.rotation Scenario.triangle2 Scenario.rotated2 leg_2 2 (- 1)
       = (P2.lm_quad Scenario.triangle2 2 1 ≫= λ i,
          Leg.mirror Scenario.rotated2 leg_2 !! i)).
Proof.
  assert (H2 : INT_MIN < 2 ≤ INT_MAX) by (unfold INT_MIN, INT_MAX; lia).
  assert (H1 : INT_MIN < 1 ≤ INT_MAX) by (unfold INT_MIN, INT_MAX; lia).
  split; [done|]. split; (split; [simpl; lia|]).
  - apply (proj1 (rotation_cases Scenario.triangle2 Scenario.rotated2 leg_1 1 2 H2)).
    right. simpl. lia.
  - apply (proj2 (proj2 (proj2 (rotation_cases Scenario.triangle2
                                  Scenario.rotated2 leg_2 2 1 H1)))).
    lia.
Defined.

(** C2, counterexample: at [(l,m) = (0, INT_MIN)], where [|m| > l],
    [rot_1] is not 0.  [abs(INT_MIN)] comes back as [INT_MIN], so
    [abs(m) > l] is false and the macro, [m] being negative, reads the
    mirrored table at [lm_quad(0, INT_MIN)]: the factor [1.0] when the
    tables hold that column, nothing on the tables of the fourth
    scenario. *)
Lemma rotation_at_int_min :
  Z.abs INT_MIN > 0
  ∧ Leg.rotation Run.at_int_min Run.mirrored_one leg_1 0 INT_MIN = Some one
  ∧ Leg.rotation Run.at_int_min Run.mirrored_one leg_1 0 INT_MIN ≠ Some zero
  ∧ Leg.rotation Scenario.triangle2 Scenario.rotated2 leg_1 0 INT_MIN = None.
Proof. repeat split; by vm_compute. Qed.

(** C4: for every family, the index table built at setup maps the
    family's valid index set one-to-one onto [0, count): every valid
    index has an offset below [count], two valid indices with the same
    offset are equal, and every offset below [count] is reached.  For each
    degree [l] the offsets of the orders [m = -l .. l] are [2l+1] distinct
    values, and two different degrees share no offset.  [count] is the sum
    of [2l+1] over the degrees [0 .. l_max], taken once for a massless
    family and once per radial order [n = 0, 1, 2] for a massive one, whose
    [l_max] is [2]; the setup hands out exactly that many offsets. *)
Theorem index_table_bijection (L : Z) (ppt2 : perturbs2.t)
    (ppw2 : perturb2_workspace.t) (f : family) :
  0 ≤ Fam.l_max ppw2 f ≤ L →
  let ppt2' := Setup.with_tables L ppt2 in
  let ppr2' := Setup.index_table L in
  Setup.bijection ppw2 f (Fam.lookup ppt2' ppr2' f) (Setup.family_count ppw2 f)
  ∧ (∀ n l, Setup.valid ppw2 f n l 0 →
       NoDup (Setup.family_offsets ppt2' ppr2' f n l)
       ∧ length (Setup.family_offsets ppt2' ppr2' f n l) = Z.to_nat (2 * l + 1))
  ∧ (∀ n l m l' m', Setup.valid ppw2 f n l m → Setup.valid ppw2 f n l' m' →
       l ≠ l' → Fam.lookup ppt2' ppr2' f n l m ≠ Fam.lookup ppt2' ppr2' f n l' m')
  ∧ Setup.family_count ppw2 f
    = (if Fam.massive f then 3 else 1)
      * foldr Z.add 0 ((λ l, 2 * l + 1) <$> seqZ 0 (Fam.l_max ppw2 f + 1))
  ∧ (Setup.build_lm L).2 = Setup.count L
  ∧ (2 ≤ L → (Setup.build_nlm L).2 = Setup.count_massive).
Proof.
  intros HL ppt2' ppr2'.
  assert (Hclosed := SetupFacts.family_count_closed ppw2 f ltac:(lia)).
  assert (Hmass : Fam.massive f = true → Fam.l_max ppw2 f = 2) by (by destruct f).
  assert (Hlk : ∀ n l m, Setup.valid ppw2 f n l m →
            Fam.lookup ppt2' ppr2' f n l m = Some (9 * n + l * l + l + m)).
  { intros n l m Hv. apply (SetupFacts.lookup_built L ppt2 ppw2); [lia|done]. }
  assert (Hinj : ∀ n l m n' l' m', Setup.valid ppw2 f n l m →
            Setup.valid ppw2 f n' l' m' →
            Fam.lookup ppt2' ppr2' f n l m = Fam.lookup ppt2' ppr2' f n' l' m' →
            n = n' ∧ l = l' ∧ m = m').
  { intros n l m n' l' m' Hv Hv' Heq.
    rewrite (Hlk _ _ _ Hv), (Hlk _ _ _ Hv') in Heq. injection Heq as Heq.
    by apply (SetupFacts.offset_index ppw2 f). }
  refine (conj (conj _ (conj Hinj _)) (conj _ (conj _ (conj _ (conj _ _))))).
  - intros n l m Hv. rewrite (Hlk _ _ _ Hv). eexists; split; [done|].
    rewrite Hclosed. destruct Hv as (Hl & Hm & Hn).
    destruct (Fam.massive f); [rewrite Hmass in * by done; nia|subst n; nia].
  - intros o Ho. rewrite Hclosed in Ho.
    set (lmax := Fam.l_max ppw2 f) in *.
    set (n := if Fam.massive f then o / 9 else 0).
    set (q := if Fam.massive f then o mod 9 else o).
    assert (Hq : 0 ≤ q < (lmax + 1) * (lmax + 1)).
    { subst q. destruct (Fam.massive f); [|lia].
      rewrite Hmass by done. apply Z.mod_pos_bound. lia. }
    assert (Hn : if Fam.massive f then 0 ≤ n ≤ 2 else n = 0).
    { subst n. destruct (Fam.massive f); [|done].
      rewrite Hmass in Ho by done.
      split; [apply Z.div_pos; lia|].
      assert (o / 9 < 3); [|lia]. apply Z.div_lt_upper_bound; lia. }
    assert (Ho' : o = 9 * n + q).
    { subst n q. destruct (Fam.massive f); [|lia]. apply Z.div_mod. lia. }
    pose proof (Z.sqrt_spec q ltac:(lia)) as Hs. cbv zeta in Hs.
    set (l := Z.sqrt q) in *.
    assert (0 ≤ l) by apply Z.sqrt_nonneg.
    assert (Hv : Setup.valid ppw2 f n l (q - l * l - l)).
    { split; [|split]; [subst lmax; nia|lia|done]. }
    exists n, l, (q - l * l - l). split; [done|].
    rewrite (Hlk _ _ _ Hv). f_equal; lia.
  - intros n l (Hl & _ & Hn). split.
    + unfold Setup.family_offsets. apply NoDup_fmap_2_strong; [|apply NoDup_seqZ].
      intros m m' Hm Hm' Heq. apply SetupFacts.elem_of_m_range in Hm, Hm'.
      assert (Hv : Setup.valid ppw2 f n l m) by done.
      assert (Hv' : Setup.valid ppw2 f n l m') by done.
      by destruct (Hinj _ _ _ _ _ _ Hv Hv' Heq) as (_ & _ & ?).
    + unfold Setup.family_offsets, Setup.m_range.
      by rewrite length_fmap, length_seqZ.
  - intros n l m l' m' Hv Hv' Hne Heq.
    by destruct (Hinj _ _ _ _ _ _ Hv Hv' Heq) as (_ & ? & _).
  - unfold Setup.family_count, Setup.count_massive, Setup.count, Setup.l_range.
    destruct (Fam.massive f); [|lia]. rewrite Hmass by done. reflexivity.
  - rewrite SetupFacts.count_closed by lia. apply SetupFacts.build_lm_spec. lia.
  - intros H2. rewrite SetupFacts.count_massive_closed.
    by apply SetupFacts.build_nlm_spec.
Qed.

(** C4 on the first scenario of the spec: photon temperature, [l_max = 2]. *)
Lemma index_table_bijection_witness :
  0 ≤ Fam.l_max (Scenario.blankw Scenario.pv2) photon_temperature ≤ 2
  ∧ Setup.bijection (Scenario.blankw Scenario.pv2) photon_temperature
      (Fam.lookup (Setup.with_tables 2 Scenario.blank2) (Setup.index_table 2)
         photon_temperature)
      (Setup.family_count (Scenario.blankw Scenario.pv2) photon_temperature).
Proof.
  split; [simpl; lia|].
  refine (proj1 (index_table_bijection 2 Scenario.blank2
                   (Scenario.blankw Scenario.pv2) photon_temperature _)).
  simpl; lia.
Defined.

(** Scenarios 1 and 2 of the spec, evaluated. *)
Example scenario_1 :
  let lm := P2.lm (Setup.with_tables 2 Scenario.blank2) (Setup.index_table 2) in
  lm 0 0 = Some 0
  ∧ [lm 1 (-1); lm 1 0; lm 1 1] = [Some 1; Some 2; Some 3]
  ∧ [lm 2 (-2); lm 2 (-1); lm 2 0; lm 2 1; lm 2 2]
    = [Some 4; Some 5; Some 6; Some 7; Some 8]
  ∧ Fam.get (Setup.with_tables 2 Scenario.blank2) (Setup.index_table 2)
      (Scenario.blankw Scenario.pv2) Scenario.y9 photon_temperature 0 3 0
    = Some zero.
Proof. repeat split; by vm_compute. Qed.

Example scenario_2 :
  Fam.get Scenario.unpolarized2 (Setup.index_table 2)
    (Scenario.blankw Scenario.pv2) Scenario.y9 photon_E 0 1 0 = Some zero
  ∧ Fam.lookup Scenario.unpolarized2 (Setup.index_table 2) photon_E 0 1 0 = Some 2.
Proof. split; by vm_compute. Qed.

(** C5: for every family and every [(l,m)], the derivative accessor names
    the cell [base(family) + lookup(l,m)] of the derivative buffer without
    any test on [l] and [m]: reading it loads that cell, assigning to it
    stores into that cell, whatever the read accessor of the state returns
    for the same arguments. *)
Theorem derivative_unchecked (ppt2 : perturbs2.t) (ppr2 : precision2.t)
    (ppw2 : perturb2_workspace.t) (dy : gmap Z double)
    (f : family) (n l m : Z) (v : double) :
  Fam.d_at ppt2 ppr2 ppw2 f n l m
  = (λ o, Fam.base ppw2 f + o) <$> Fam.lookup ppt2 ppr2 f n l m
  ∧ Fam.d_get ppt2 ppr2 ppw2 dy f n l m
    = (Fam.lookup ppt2 ppr2 f n l m ≫= λ o, dy !! (Fam.base ppw2 f + o))
  ∧ Fam.d_set ppt2 ppr2 ppw2 dy f n l m v
    = (Fam.lookup ppt2 ppr2 f n l m ≫= λ o,
         dy !! (Fam.base ppw2 f + o) ≫= λ _,
         Some (<[Fam.base ppw2 f + o := v]> dy)).
Proof.
  unfold Fam.d_get, Fam.d_set, P2.load, P2.store.
  destruct f; cbn [Fam.d_at Fam.lookup Fam.massive Fam.base];
    unfold P2.dI_at, P2.dE_at, P2.dB_at, P2.dN_at, P2.db_at, P2.dcdm_at;
    match goal with
    | |- context [P2.lm ?a ?b ?c ?d] => destruct (P2.lm a b c d)
    | |- context [P2.nlm ?a ?b ?c ?d ?e] => destruct (P2.nlm a b c d e)
    end; done.
Qed.

(** The dispatch on the family is the macro of the family. *)
Example derivative_macros ppt2 ppr2 ppw2 dy l m v :
  Fam.d_get ppt2 ppr2 ppw2 dy photon_temperature 0 l m = P2.dI ppt2 ppr2 ppw2 dy l m
  ∧ Fam.d_set ppt2 ppr2 ppw2 dy photon_E 0 l m v = P2.set_dE ppt2 ppr2 ppw2 dy l m v.
Proof. done. Qed.

(** At [(l,m) = (2,0)], above the truncation order [1], the photon
    temperature reads as 0 while [dI(2,0) = 1.0] stores into cell 6. *)
Example derivative_stored_where_state_reads_zero :
  P2.I (Setup.with_tables 2 Scenario.blank2) (Setup.index_table 2)
    (Scenario.blankw Scenario.pv1) Scenario.y9 2 0 = Some zero
  ∧ P2.set_dI (Setup.with_tables 2 Scenario.blank2) (Setup.index_table 2)
      (Scenario.blankw Scenario.pv1) Scenario.dy9 2 0 one
    = Some (<[6 := one]> Scenario.dy9).
Proof. split; by vm_compute. Qed.

(** C6: the debug selector appends its record to the stream exactly when
    the three active indices equal the three target indices; otherwise the
    stream is returned as it was.  The outcome depends on the six indices
    only. *)
Theorem printf_k_debug_filter (ppt2 : perturbs2.t) (ppw2 : perturb2_workspace.t)
    (args : string) (out : list string) :
  (P2.printf_k_debug ppt2 ppw2 args out = out ++ [args]
   ↔ index_k1 ppw2 = index_k1_debug ppt2
     ∧ index_k2 ppw2 = index_k2_debug ppt2
     ∧ index_k3 ppw2 = index_k3_debug ppt2)
  ∧ (P2.printf_k_debug ppt2 ppw2 args out = out
     ↔ ¬ (index_k1 ppw2 = index_k1_debug ppt2
          ∧ index_k2 ppw2 = index_k2_debug ppt2
          ∧ index_k3 ppw2 = index_k3_debug ppt2))
  ∧ (∀ ppt2' ppw2',
       index_k1 ppw2' = index_k1 ppw2 → index_k2 ppw2' = index_k2 ppw2 →
       index_k3 ppw2' = index_k3 ppw2 →
       index_k1_debug ppt2' = index_k1_debug ppt2 →
       index_k2_debug ppt2' = index_k2_debug ppt2 →
       index_k3_debug ppt2' = index_k3_debug ppt2 →
       P2.printf_k_debug ppt2' ppw2' args out = P2.printf_k_debug ppt2 ppw2 args out).
Proof.
  assert (Hne : out ++ [args] ≠ out).
  { intros H. apply (f_equal length) in H. rewrite length_app in H.
    simpl in H. lia. }
  unfold P2.printf_k_debug. split; [|split].
  - zbool; intuition (congruence || lia).
  - zbool; intuition (congruence || lia).
  - intros ppt2' ppw2' -> -> -> -> -> ->. done.
Qed.

(** C7: when a base file is overlaid with an override file that sets a
    new value for a name the base already has, a typed lookup of that name
    afterwards is found and returns the override's value (as a string, and
    as an integer when the value is one), and the entry is flagged and
    reported as overwritten; an entry that only the base file has and that
    no lookup names keeps its read flag unset and is reported among the
    entries never consulted. *)
Theorem overlay_overwrites (fb fo : string)
    (eb eo : list (string * string)) (nm v : string) :
  nm ∈ eb.*1 → NoDup eo.*1 → (nm, v) ∈ eo →
  let pfc := Parser.overlay (Parser.parser_read_file fb eb)
                            (Parser.parser_read_file fo eo) in
  ∃ i, Parser.find (Parser.name pfc) nm = Some i
    ∧ (Parser.parser_read_string pfc nm).2 = Some v
    ∧ (∀ z, Parser.parse_int v = Some z →
         ∃ pfc', Parser.parser_read_int pfc nm = Some (pfc', Some z))
    ∧ Parser.overwritten pfc !! i = Some Parser._TRUE_
    ∧ nm ∈ Parser.overwritten_entries pfc
    ∧ ∀ nm' queries, nm' ∈ eb.*1 → nm' ∉ eo.*1 → nm' ∉ queries →
        let pfc'' := Parser.consult pfc queries in
        ∃ j, Parser.find (Parser.name pfc'') nm' = Some j
          ∧ Parser.read pfc'' !! j = Some _FALSE_
          ∧ nm' ∈ Parser.never_consulted pfc''.
Proof.
  intros Hin Hnd Hset pfc.
  set (base := Parser.parser_read_file fb eb) in *.
  assert (Hpfc : pfc = foldl Parser.overlay_entry base eo).
  { subst pfc. unfold Parser.overlay. simpl. by rewrite zip_fst_snd. }
  pose proof (ParserFacts.wf_read_file fb eb) as Hwf. fold base in Hwf.
  destruct (ParserFacts.find_elem eb.*1 nm Hin) as [i Hi].
  destruct (ParserFacts.overlay_sets nm v i eo base Hwf Hi Hnd Hset)
    as (W & F & V & O & _).
  rewrite <- Hpfc in W, F, V, O.
  assert (Hread : Parser.parser_read_string pfc nm
                  = (Parser.mk (Parser.filename pfc) (Parser.size pfc)
                       (Parser.name pfc) (Parser.value pfc)
                       (<[i:=Parser._TRUE_]> (Parser.read pfc))
                       (Parser.overwritten pfc), Some v)).
  { unfold Parser.parser_read_string. by rewrite F, V. }
  exists i. split; [done|]. split; [by rewrite Hread|]. split; [|split; [done|split]].
  - intros z Hz. unfold Parser.parser_read_int. rewrite Hread, Hz. by eexists.
  - apply (ParserFacts.elem_of_flagged _ _ _ _ i); [|done].
    by apply ParserFacts.find_Some.
  - intros nm' queries Hin' Hnot Hq pfc''.
    destruct (ParserFacts.find_elem eb.*1 nm' Hin') as [j Hj].
    pose proof (ParserFacts.overlay_others nm' j eo base Hwf Hj Hnot)
      as (W1 & F1 & _ & R1 & _).
    rewrite <- Hpfc in W1, F1, R1.
    pose proof (ParserFacts.consult_others nm' j queries pfc W1 F1 Hq)
      as (W2 & F2 & _ & R2 & _).
    fold pfc'' in W2, F2, R2.
    assert (Hflag : Parser.read pfc'' !! j = Some _FALSE_).
    { rewrite R2, R1. simpl. apply lookup_replicate. split; [done|].
      apply ParserFacts.find_Some, lookup_lt_Some in Hj.
      by rewrite length_fmap in Hj. }
    exists j. split; [done|]. split; [done|].
    apply (ParserFacts.elem_of_flagged _ _ _ _ j); [|done].
    by apply ParserFacts.find_Some.
Qed.

(** C7 on the third scenario of the spec. *)
Lemma overlay_overwrites_witness :
  ("truncation" ∈ [("truncation", "4"); ("tolerance", "1e-5")].*1
   ∧ NoDup [("truncation", "6")].*1
   ∧ ("truncation", "6") ∈ [("truncation", "6")])
  ∧ (Parser.parser_read_string
       (Parser.overlay Scenario.base_file Scenario.override_file) "truncation").2
    = Some "6"
  ∧ "truncation" ∈ Parser.overwritten_entries
                     (Parser.overlay Scenario.base_file Scenario.override_file)
  ∧ "tolerance" ∈ Parser.never_consulted
                    (Parser.consult
                       (Parser.overlay Scenario.base_file Scenario.override_file)
                       ["truncation"]).
Proof.
  assert (H1 : "truncation" ∈ [("truncation", "4"); ("tolerance", "1e-5")].*1)
    by (simpl; apply list_elem_of_here).
  assert (H2 : NoDup [("truncation", "6")].*1) by (simpl; apply NoDup_singleton).
  assert (H3 : ("truncation", "6") ∈ [("truncation", "6")])
    by apply list_elem_of_here.
  split; [done|].
  destruct (overlay_overwrites "base.ini" "override.ini"
              [("truncation", "4"); ("tolerance", "1e-5")]
              [("truncation", "6")] "truncation" "6" H1 H2 H3)
    as (i & _ & V & _ & _ & Hover & Hbase).
  split; [exact V|]. split; [exact Hover|].
  destruct (Hbase "tolerance" ["truncation"]) as (j & _ & _ & Hnever).
  - simpl. apply list_elem_of_further, list_elem_of_here.
  - simpl. by intros ?%list_elem_of_singleton.
  - by intros ?%list_elem_of_singleton.
  - exact Hnever.
Defined.

Example scenario_3 :
  let pfc := Parser.overlay Scenario.base_file Scenario.override_file in
  (Parser.parser_read_int pfc "truncation" ≫= λ r, Some r.2) = Some (Some 6)
  ∧ Parser.overwritten_entries pfc = ["truncation"]
  ∧ Parser.never_consulted
      (Parser.consult pfc ["truncation"]) = ["tolerance"].
Proof. repeat split; by vm_compute. Qed.

(** C9: each coupling accessor reads its table at row [lm(l,m)] and column
    [m-m1+1] with no test on the column.  With the three-entry second
    dimension, a call with [m-m1] outside [{-1,0,1}] reads outside the
    row, and a call with [m-m1] inside it reads an entry of the row. *)
Theorem coupling_unchecked (ppt2 : perturbs2.t) (ppr2 : precision2.t)
    (c : coefficient) :
  Leg.three_columns (Leg.coupling_table ppt2 c) →
  ∀ l m1 m,
    Leg.coupling ppt2 ppr2 c l m1 m
    = (P2.lm ppt2 ppr2 l m ≫= λ r,
       Leg.coupling_table ppt2 c !! r ≫= λ row, row !! (m - m1 + 1))
    ∧ (¬ (-1 ≤ m - m1 ≤ 1) → Leg.coupling ppt2 ppr2 c l m1 m = None)
    ∧ (-1 ≤ m - m1 ≤ 1 →
       ∀ r, P2.lm ppt2 ppr2 l m = Some r →
            is_Some (Leg.coupling_table ppt2 c !! r) →
            is_Some (Leg.coupling ppt2 ppr2 c l m1 m)).
Proof.
  intros H3 l m1 m.
  assert (Heq : Leg.coupling ppt2 ppr2 c l m1 m
                = P2.coupling ppt2 ppr2 (Leg.coupling_table ppt2 c) l m1 m)
    by (by destruct c).
  rewrite Heq. unfold P2.coupling, Arr.get2.
  split; [done|]. split.
  - intros Hout. destruct (P2.lm ppt2 ppr2 l m) as [r|]; [|done]. simpl.
    destruct (Leg.coupling_table ppt2 c !! r) as [row|] eqn:Hrow; [|done]. simpl.
    apply eq_None_not_Some. intros Hs. apply (H3 r row Hrow) in Hs. lia.
  - intros Hin r -> [row Hrow]. simpl. rewrite Hrow. simpl.
    apply (H3 r row Hrow). lia.
Qed.

Lemma three_columns_coupling1 : Leg.three_columns Scenario.coupling1.
Proof.
  intros r row Hrow j. unfold Scenario.coupling1 in Hrow.
  apply lookup_singleton_Some in Hrow as [_ <-].
  rewrite lookup_map_seqZ_is_Some. simpl. lia.
Qed.

Lemma coupling_unchecked_witness :
  Leg.three_columns (Leg.coupling_table Scenario.lm00 coef_c_minus)
  ∧ Leg.coupling Scenario.lm00 Scenario.column0 coef_c_minus 0 2 0 = None.
Proof.
  split; [exact three_columns_coupling1|].
  refine (proj1 (proj2 (coupling_unchecked Scenario.lm00 Scenario.column0
                          coef_c_minus three_columns_coupling1 0 2 0)) _).
  lia.
Defined.

Lemma rotated_times ppt ppt2 ppw2 ps1 ps2 x g l m :
  Leg.rotated ppt ppt2 ppw2 ps1 ps2 x g l m
  = P2.times (Leg.rotation ppt2 ppw2 g l m) (Leg.tilde ppt ppt2 ps1 ps2 x g l).
Proof. by destruct x, g. Qed.

(** C10, as amended: for every leg and every integer pair [(l,m)] with
    [m > INT_MIN] and with [l < 0] or [|m| > l], the rotation factor is 0,
    and the rotated accessors I_leg, E_leg and N_leg evaluate to a zero
    provided the first-order entry they multiply is read inside its array
    and is finite, which is always so for [l < 0], where the entry is the
    constant 0.  With polarization disabled [E_leg_tilde(l)] is 0 for
    every [l], and E_1 and E_2 evaluate to a zero at every [(l,m)] whose
    rotation factor is read inside its table and is finite. *)
Theorem rotated_zero (ppt : perturbs.t) (ppt2 : perturbs2.t)
    (ppw2 : perturb2_workspace.t) (ps1 ps2 : gmap Z double)
    (x : moment) (g : leg) (l m : Z) :
  INT_MIN < m →
  (l < 0 ∨ Z.abs m > l → Leg.rotation ppt2 ppw2 g l m = Some zero)
  ∧ (l < 0 → Leg.rotated ppt ppt2 ppw2 ps1 ps2 x g l m = Some zero)
  ∧ (l < 0 ∨ Z.abs m > l →
     ∀ t, Leg.tilde ppt ppt2 ps1 ps2 x g l = Some t → finite t = true →
          ∃ z, Leg.rotated ppt ppt2 ppw2 ps1 ps2 x g l m = Some z
               ∧ is_zero z = true)
  ∧ (has_polarization2 ppt2 = _FALSE_ →
     Leg.tilde ppt ppt2 ps1 ps2 moment_E g l = Some zero
     ∧ ∀ r, Leg.rotation ppt2 ppw2 g l m = Some r → finite r = true →
            ∃ z, Leg.rotated ppt ppt2 ppw2 ps1 ps2 moment_E g l m = Some z
                 ∧ is_zero z = true).
Proof.
  intros Hmin. pose proof (abs_eq m Hmin) as Ha.
  assert (Hrot : l < 0 ∨ Z.abs m > l → Leg.rotation ppt2 ppw2 g l m = Some zero).
  { intros H. destruct g; cbn [Leg.rotation]; unfold P2.rot_1, P2.rot_2;
      rewrite Ha; zbool; try reflexivity; lia. }
  assert (Htil : l < 0 → Leg.tilde ppt ppt2 ps1 ps2 x g l = Some zero).
  { intros H. destruct x, g; cbn [Leg.tilde];
      unfold P2.I_1_tilde, P2.I_2_tilde, P2.E_1_tilde, P2.E_2_tilde,
        P2.N_1_tilde, P2.N_2_tilde; zbool; try reflexivity; lia. }
  split; [done|]. split; [|split].
  - intros H. rewrite rotated_times, Hrot, Htil by auto. reflexivity.
  - intros H t Ht Hfin. rewrite rotated_times, Hrot, Ht by done.
    eexists. split; [reflexivity|]. by apply mul_zero_l.
  - intros Hpol.
    assert (HE : Leg.tilde ppt ppt2 ps1 ps2 moment_E g l = Some zero).
    { destruct g; cbn [Leg.tilde]; unfold P2.E_1_tilde, P2.E_2_tilde;
        rewrite Hpol, Z.eqb_refl, orb_true_r; reflexivity. }
    split; [done|].
    intros r Hr Hfin. rewrite rotated_times, Hr, HE.
    eexists. split; [reflexivity|]. by apply mul_zero_r.
Qed.

(** C10 at [(l,m) = (0,1)], first-order entry [1.0]: leg 1's [I_1] is a
    zero. *)
Lemma rotated_zero_witness :
  INT_MIN < 1
  ∧ Z.abs 1 > 0
  ∧ Leg.tilde Scenario.ppt0 Scenario.lm00 Scenario.sources_one
      Scenario.sources_one moment_I leg_1 0 = Some one
  ∧ finite one = true
  ∧ ∃ z, Leg.rotated Scenario.ppt0 Scenario.lm00 (Scenario.rotating one)
           Scenario.sources_one Scenario.sources_one moment_I leg_1 0 1 = Some z
         ∧ is_zero z = true.
Proof.
  assert (H1 : INT_MIN < 1) by (unfold INT_MIN; lia).
  split; [done|].
  split; [simpl; lia|]. split; [by vm_compute|]. split; [reflexivity|].
  refine (proj1 (proj2 (proj2 (rotated_zero Scenario.ppt0 Scenario.lm00
                                 (Scenario.rotating one) Scenario.sources_one
                                 Scenario.sources_one moment_I leg_1 0 1 H1)))
            _ one _ _).
  - right. simpl. lia.
  - by vm_compute.
  - reflexivity.
Defined.

(** C10, counterexample: at [(l,m) = (0,1)], outside validity, leg 1's
    [I_1] is a NaN when the first-order monopole it multiplies is one; and
    with polarization disabled, [E_1(0,0)] is a NaN when the rotation
    factor is one, and [E_1(1,0)] reads outside a rotation table that
    stops at degree 0.  At [(l,m) = (0, INT_MIN)], outside validity too,
    [abs(m) > l] is false and [I_1] reads outside the rotation table.
    None of them is 0. *)
Lemma rotated_not_zero :
  (Z.abs 1 > 0
   ∧ Leg.rotated Scenario.ppt0 Scenario.lm00 (Scenario.rotating one)
       Scenario.sources_nan Scenario.sources_nan moment_I leg_1 0 1 = Some nan
   ∧ is_zero nan = false)
  ∧ (has_polarization2 Scenario.lm00 = _FALSE_
     ∧ Leg.rotated Scenario.ppt0 Scenario.lm00 (Scenario.rotating nan)
         Scenario.sources_nan Scenario.sources_nan moment_E leg_1 0 0 = Some nan
     ∧ Leg.rotated Scenario.ppt0 Scenario.lm00 (Scenario.rotating one)
         Scenario.sources_nan Scenario.sources_nan moment_E leg_1 1 0 = None)
  ∧ (Z.abs INT_MIN > 0
     ∧ Leg.rotated Scenario.ppt0 Scenario.lm00 (Scenario.rotating one)
         Scenario.sources_one Scenario.sources_one moment_I leg_1 0 INT_MIN
       = None).
Proof. repeat split; by vm_compute. Qed.

(** ** Further properties of the macros *)

Module RunFacts.

Lemma above_pos ks : 1 ≤ Run.above ks.
Proof.
  unfold Run.above. assert (0 ≤ foldr Z.max 0 ks); [|lia].
  induction ks as [|k ks IH]; simpl; lia.
Qed.

Lemma lt_above ks k : k ∈ ks → k < Run.above ks.
Proof.
  unfold Run.above. induction ks as [|k' ks IH]; [by intros ?%elem_of_nil|].
  intros [->|Hin]%elem_of_cons; simpl; [lia|].
  specialize (IH Hin). lia.
Qed.

(** A finite array has no cell from [above] its subscripts on. *)
Lemma lookup_above {A} (a : gmap Z A) k :
  Run.above (map_to_list a).*1 ≤ k → a !! k = None.
Proof.
  intros Hk. apply eq_None_not_Some. intros [x Hx].
  apply elem_of_map_to_list in Hx.
  apply (list_elem_of_fmap_2 fst) in Hx. apply lt_above in Hx. simpl in Hx. lia.
Qed.

End RunFacts.

(** X1: when the index table and the state buffer hold every multipole
    with [0 <= l <= l_max(family)] and [|m| <= l], the read macro of a
    massless family (I, E, B, N) has a value at every integer pair [(l,m)]
    with [m > INT_MIN]: no such call reads outside the table or the
    buffer. *)
Theorem massless_read_in_bounds (ppt2 : perturbs2.t) (ppr2 : precision2.t)
    (ppw2 : perturb2_workspace.t) (y : gmap Z double) (f : family) :
  Fam.massive f = false →
  Run.covers ppt2 ppr2 ppw2 y f →
  ∀ n l m, INT_MIN < m → is_Some (Fam.get ppt2 ppr2 ppw2 y f n l m).
Proof.
  intros Hf Hcov n l m Hmin. pose proof (abs_eq m Hmin) as Ha.
  destruct f; try discriminate; cbn [Fam.get];
    unfold P2.I, P2.E, P2.B, P2.N; rewrite Ha; zbool; try (by eexists);
    (destruct (Hcov l m) as (o & -> & Hy); [simpl; lia|lia|exact Hy]).
Qed.

Lemma covers_scenario_1 :
  Run.covers (Setup.with_tables 2 Scenario.blank2) (Setup.index_table 2)
    (Scenario.blankw Scenario.pv2) Scenario.y9 photon_temperature.
Proof.
  intros l m Hl Hm. simpl in Hl.
  exists (l * l + l + m). split; [apply SetupFacts.lm_built; lia|].
  unfold Scenario.y9. apply lookup_map_seqZ_is_Some.
  rewrite length_replicate. simpl. nia.
Qed.

Lemma massless_read_in_bounds_witness :
  Fam.massive photon_temperature = false
  ∧ Run.covers (Setup.with_tables 2 Scenario.blank2) (Setup.index_table 2)
      (Scenario.blankw Scenario.pv2) Scenario.y9 photon_temperature
  ∧ INT_MIN < -7
  ∧ is_Some (Fam.get (Setup.with_tables 2 Scenario.blank2) (Setup.index_table 2)
               (Scenario.blankw Scenario.pv2) Scenario.y9 photon_temperature
               0 5 (-7)).
Proof.
  assert (H7 : INT_MIN < -7) by (unfold INT_MIN; lia).
  split; [reflexivity|]. split; [exact covers_scenario_1|]. split; [done|].
  exact (massless_read_in_bounds _ _ _ _ photon_temperature eq_refl
           covers_scenario_1 0 5 (-7) H7).
Defined.

(** X2: the read macros of the massive families have no upper test on
    [l]: whatever the tables hold, from some degree on every call [b(n,l,m)]
    and [cdm(n,l,m)] with [|m| <= l] reads outside the table. *)
Theorem massive_read_unbounded (ppt2 : perturbs2.t) (ppr2 : precision2.t)
    (ppw2 : perturb2_workspace.t) (y : gmap Z double) (n : Z) :
  ∃ L, ∀ l m, L ≤ l → Z.abs m ≤ l →
    P2.b ppt2 ppr2 ppw2 y n l m = None
    ∧ P2.cdm ppt2 ppr2 ppw2 y n l m = None.
Proof.
  set (plane := default ∅ (nlm_array ppt2 !! n)).
  exists (Run.above (map_to_list plane).*1).
  intros l m Hl Hm.
  pose proof (RunFacts.above_pos (map_to_list plane).*1) as Hpos.
  assert (Hnlm : P2.nlm ppt2 ppr2 n l m = None).
  { unfold P2.nlm, Arr.get3, Arr.get2.
    destruct (index_m ppr2 !! m) as [im|]; [|done]. simpl.
    subst plane. destruct (nlm_array ppt2 !! n) as [pl|]; [|done]. simpl in *.
    by rewrite (RunFacts.lookup_above pl l Hl). }
  pose proof (abs_le m) as Hle.
  unfold P2.b, P2.cdm. rewrite Hnlm. zbool; try lia. done.
Qed.

(** X3: the first-order macros [X_leg_tilde(l)] have no upper test on [l]:
    whatever the source vector holds, from some degree on the macro reads
    outside it, and so does the rotated macro [X_leg(l,m)] at every [m].
    For the E-modes this needs polarization to be enabled; when it is
    disabled [E_leg_tilde] reads nothing. *)
Theorem tilde_unbounded (ppt : perturbs.t) (ppt2 : perturbs2.t)
    (ps1 ps2 : gmap Z double) (x : moment) (g : leg) :
  x ≠ moment_E ∨ has_polarization2 ppt2 ≠ _FALSE_ →
  ∃ L, ∀ l, L ≤ l →
    Leg.tilde ppt ppt2 ps1 ps2 x g l = None
    ∧ ∀ ppw2 m, Leg.rotated ppt ppt2 ppw2 ps1 ps2 x g l m = None.
Proof.
  intros Hx.
  set (ps := match g with leg_1 => ps1 | leg_2 => ps2 end).
  set (base := match x with
               | moment_I => index_qs_monopole_g ppt
               | moment_E => index_qs_monopole_E ppt
               | moment_N => index_qs_monopole_ur ppt
               end).
  exists (Z.max 0 (Run.above (map_to_list ps).*1 - base)).
  intros l Hl.
  assert (Hps : ps !! (base + l) = None) by (apply RunFacts.lookup_above; lia).
  assert (Htil : Leg.tilde ppt ppt2 ps1 ps2 x g l = None).
  { destruct x, g; cbn [Leg.tilde];
      unfold P2.I_1_tilde, P2.I_2_tilde, P2.E_1_tilde, P2.E_2_tilde,
        P2.N_1_tilde, P2.N_2_tilde; zbool; try lia; try exact Hps;
      destruct Hx; congruence. }
  split; [done|]. intros ppw2 m.
  rewrite rotated_times, Htil. unfold P2.times.
  by destruct (Leg.rotation ppt2 ppw2 g l m).
Qed.

Lemma tilde_unbounded_witness :
  (moment_I ≠ moment_E ∨ has_polarization2 Scenario.lm00 ≠ _FALSE_)
  ∧ ∃ L, ∀ l, L ≤ l →
      Leg.tilde Scenario.ppt0 Scenario.lm00 Scenario.sources_one
        Scenario.sources_one moment_I leg_1 l = None.
Proof.
  assert (H : moment_I ≠ moment_E ∨ has_polarization2 Scenario.lm00 ≠ _FALSE_)
    by (left; discriminate).
  split; [exact H|].
  destruct (tilde_unbounded Scenario.ppt0 Scenario.lm00 Scenario.sources_one
              Scenario.sources_one moment_I leg_1 H) as [L HL].
  exists L. intros l Hl. exact (proj1 (HL l Hl)).
Defined.

(** X4: an assignment through a derivative macro succeeds exactly when the
    cell it names exists; the macro then reads back the assigned value,
    every derivative macro that names another cell reads what it read
    before, and the buffer keeps its cells. *)
Theorem derivative_store_load (ppt2 : perturbs2.t) (ppr2 : precision2.t)
    (ppw2 : perturb2_workspace.t) (dy : gmap Z double)
    (f : family) (n l m : Z) (v : double) :
  (is_Some (Fam.d_set ppt2 ppr2 ppw2 dy f n l m v)
   ↔ is_Some (Fam.d_get ppt2 ppr2 ppw2 dy f n l m))
  ∧ ∀ dy', Fam.d_set ppt2 ppr2 ppw2 dy f n l m v = Some dy' →
      Fam.d_get ppt2 ppr2 ppw2 dy' f n l m = Some v
      ∧ dom dy' = dom dy
      ∧ ∀ f' n' l' m',
          Fam.d_at ppt2 ppr2 ppw2 f' n' l' m' ≠ Fam.d_at ppt2 ppr2 ppw2 f n l m →
          Fam.d_get ppt2 ppr2 ppw2 dy' f' n' l' m'
          = Fam.d_get ppt2 ppr2 ppw2 dy f' n' l' m'.
Proof.
  unfold Fam.d_get, Fam.d_set, P2.load, P2.store.
  destruct (Fam.d_at ppt2 ppr2 ppw2 f n l m) as [i|]; simpl.
  - destruct (dy !! i) as [x|] eqn:Hi; simpl.
    + split; [split; by eexists|].
      intros dy' [= <-]. split; [apply lookup_insert_eq|]. split.
      * apply dom_insert_lookup_L. by eexists.
      * intros f' n' l' m' Hne.
        destruct (Fam.d_at ppt2 ppr2 ppw2 f' n' l' m') as [j|]; [|done]. simpl.
        apply lookup_insert_ne. congruence.
    + split; [split; by intros [? ?]|]. by intros dy' ?.
  - split; [split; by intros [? ?]|]. by intros dy' ?.
Qed.

(** X5: a rotation macro called with [m > INT_MIN] subscripts
    [lm_array_quad] only at pairs [(l,j)] with [0 <= j <= l]: two tables
    that agree there give the same rotation factor at every such integer
    pair [(l,m)], negative [m] included. *)
Theorem rotation_footprint (ppt2 ppt2' : perturbs2.t)
    (ppw2 : perturb2_workspace.t) :
  (∀ l j, 0 ≤ j ≤ l → P2.lm_quad ppt2 l j = P2.lm_quad ppt2' l j) →
  ∀ g l m, INT_MIN < m →
    Leg.rotation ppt2 ppw2 g l m = Leg.rotation ppt2' ppw2 g l m.
Proof.
  intros Hagree g l m Hmin. pose proof (abs_eq m Hmin) as Ha.
  destruct g; cbn [Leg.rotation]; unfold P2.rot_1, P2.rot_2; rewrite Ha; zbool;
    try reflexivity; rewrite Hagree by lia; reflexivity.
Qed.

(** X6: when the rotation cache holds the factor of every [(l,j)] with
    [0 <= j <= l <= L], in the table and in its mirror, the rotation macro
    has a value at every integer pair [(l,m)] with [l <= L] and
    [m > INT_MIN]. *)
Theorem rotation_in_bounds (ppt2 : perturbs2.t) (ppw2 : perturb2_workspace.t)
    (g : leg) (L : Z) :
  Run.rotation_covers ppt2 ppw2 g L →
  ∀ l m, l ≤ L → INT_MIN < m → is_Some (Leg.rotation ppt2 ppw2 g l m).
Proof.
  intros Hcov l m Hl Hmin. pose proof (abs_eq m Hmin) as Ha.
  destruct g; cbn [Leg.rotation]; unfold P2.rot_1, P2.rot_2; rewrite Ha; zbool;
    try (by eexists).
  all: match goal with
       | |- context [P2.lm_quad _ ?l0 ?j] =>
           destruct (Hcov l0 j) as (i & -> & Ht & Hm); [lia|lia|]
       end; simpl; assumption.
Qed.

(** X8: over a run of calls at fixed indices the debug shortcut is all or
    nothing: on a match the stream gains every record of the run, in
    order; on a mismatch it is left as it was. *)
Theorem printf_k_debug_run_all_or_nothing (ppt2 : perturbs2.t)
    (ppw2 : perturb2_workspace.t) (records out : list string) :
  (index_k1 ppw2 = index_k1_debug ppt2 ∧ index_k2 ppw2 = index_k2_debug ppt2
   ∧ index_k3 ppw2 = index_k3_debug ppt2 →
   Run.printf_k_debug_run ppt2 ppw2 records out = out ++ records)
  ∧ (¬ (index_k1 ppw2 = index_k1_debug ppt2 ∧ index_k2 ppw2 = index_k2_debug ppt2
        ∧ index_k3 ppw2 = index_k3_debug ppt2) →
     Run.printf_k_debug_run ppt2 ppw2 records out = out).
Proof.
  unfold Run.printf_k_debug_run. split.
  - intros (H1 & H2 & H3). revert out.
    induction records as [|r rs IH]; intros out; simpl.
    + by rewrite app_nil_r.
    + rewrite IH. unfold P2.printf_k_debug.
      rewrite H1, H2, H3, !Z.eqb_refl. simpl. by rewrite <- app_assoc.
  - intros Hno. revert out.
    induction records as [|r rs IH]; intros out; simpl; [done|].
    rewrite IH. unfold P2.printf_k_debug. zbool; [|done..].
    exfalso. apply Hno. lia.
Qed.

Lemma quad2_wide_agrees l j :
  0 ≤ j ≤ l →
  P2.lm_quad Scenario.triangle2 l j = P2.lm_quad Run.triangle2_wide l j.
Proof.
  intros Hj. destruct (decide (l ≤ 2)) as [Hl|Hl].
  - assert (l = 0 ∨ l = 1 ∨ l = 2) as [->|[->| ->]] by lia.
    + assert (j = 0) as -> by lia. by vm_compute.
    + assert (j = 0 ∨ j = 1) as [->| ->] by lia; by vm_compute.
    + assert (j = 0 ∨ j = 1 ∨ j = 2) as [->|[->| ->]] by lia; by vm_compute.
  - unfold P2.lm_quad, Arr.get2. cbn [lm_array_quad Scenario.triangle2
      Run.triangle2_wide]. unfold Scenario.quad2, Run.quad2_wide.
    rewrite (proj2 (lookup_map_seqZ_None 0 _ l)) by (simpl; lia).
    rewrite (proj2 (lookup_map_seqZ_None 0 _ l)) by (simpl; lia).
    reflexivity.
Qed.

Lemma rotation_footprint_witness :
  (∀ l j, 0 ≤ j ≤ l →
     P2.lm_quad Scenario.triangle2 l j = P2.lm_quad Run.triangle2_wide l j)
  ∧ INT_MIN < -1
  ∧ P2.lm_quad Scenario.triangle2 2 (-1) ≠ P2.lm_quad Run.triangle2_wide 2 (-1)
  ∧ Leg.rotation Scenario.triangle2 Scenario.rotated2 leg_1 2 (-1)
    = Leg.rotation Run.triangle2_wide Scenario.rotated2 leg_1 2 (-1).
Proof.
  assert (H1 : INT_MIN < -1) by (unfold INT_MIN; lia).
  split; [exact quad2_wide_agrees|]. split; [done|]. split; [by vm_compute|].
  exact (rotation_footprint Scenario.triangle2 Run.triangle2_wide
           Scenario.rotated2 quad2_wide_agrees leg_1 2 (-1) H1).
Defined.

Lemma rotation_covers_scenario_4 :
  Run.rotation_covers Scenario.triangle2 Scenario.rotated2 leg_1 2.
Proof.
  intros l j Hj Hl.
  assert (l = 0 ∨ l = 1 ∨ l = 2) as [->|[->| ->]] by lia.
  - assert (j = 0) as -> by lia. eexists. vm_compute. repeat split; by eexists.
  - assert (j = 0 ∨ j = 1) as [->| ->] by lia;
      eexists; vm_compute; repeat split; by eexists.
  - assert (j = 0 ∨ j = 1 ∨ j = 2) as [->|[->| ->]] by lia;
      eexists; vm_compute; repeat split; by eexists.
Qed.

Lemma rotation_in_bounds_witness :
  Run.rotation_covers Scenario.triangle2 Scenario.rotated2 leg_1 2
  ∧ 2 ≤ 2 ∧ INT_MIN < -9
  ∧ is_Some (Leg.rotation Scenario.triangle2 Scenario.rotated2 leg_1 2 (-9)).
Proof.
  assert (H9 : INT_MIN < -9) by (unfold INT_MIN; lia).
  split; [exact rotation_covers_scenario_4|]. split; [lia|]. split; [done|].
  refine (rotation_in_bounds Scenario.triangle2 Scenario.rotated2 leg_1 2
            rotation_covers_scenario_4 2 (-9) _ H9).
  lia.
Defined.

Lemma wrap_id z : INT_MIN ≤ z ≤ INT_MAX → Src.wrap z = z.
Proof.
  unfold Src.wrap, INT_MIN, INT_MAX. intros H.
  rewrite Z.mod_small by lia. lia.
Qed.

(** X7: for one pair [(index_k1, index_k2)] with [k3_size] entries per
    instant, and as long as [index_tau*k3_size + index_k3] stays among the
    [int]s, [sources] names different cells for different pairs
    [(index_tau, index_k3)] with [0 <= index_tau] and
    [0 <= index_k3 < k3_size]; the macro does not test [index_k3], and at
    [index_k3 = k3_size] it names the first cell of the next instant. *)
Theorem sources_flattening (ppt2 : perturbs2_sources.t)
    (ppw2 : perturb2_workspace.t) (K : Z) :
  Arr.get2 (perturbs2_sources.k3_size ppt2) (index_k1 ppw2) (index_k2 ppw2)
  = Some K →
  (∀ tau tau' k3 k3',
     0 ≤ tau → 0 ≤ k3 < K → tau * K + k3 ≤ INT_MAX →
     0 ≤ tau' → 0 ≤ k3' < K → tau' * K + k3' ≤ INT_MAX →
     Src.sources_at ppt2 (Src.at_k3 ppw2 k3) tau
     = Src.sources_at ppt2 (Src.at_k3 ppw2 k3') tau' →
     tau = tau' ∧ k3 = k3')
  ∧ (∀ tau index_type,
       0 ≤ tau → 0 ≤ K → (tau + 1) * K ≤ INT_MAX →
       Src.sources_at ppt2 (Src.at_k3 ppw2 K) tau
       = Src.sources_at ppt2 (Src.at_k3 ppw2 0) (tau + 1)
       ∧ Src.sources ppt2 (Src.at_k3 ppw2 K) tau index_type
         = Src.sources ppt2 (Src.at_k3 ppw2 0) (tau + 1) index_type).
Proof.
  intros HK.
  assert (Hat : ∀ k3 tau, 0 ≤ tau → 0 ≤ K → 0 ≤ k3 → tau * K + k3 ≤ INT_MAX →
            Src.sources_at ppt2 (Src.at_k3 ppw2 k3) tau = Some (tau * K + k3)).
  { intros k3 tau Ht HK0 Hk Hmax. unfold Src.sources_at.
    cbn [index_k1 index_k2 index_k3 Src.at_k3]. rewrite HK. simpl.
    assert (0 ≤ tau * K) by nia.
    rewrite (wrap_id (tau * K)) by (unfold INT_MIN; lia).
    rewrite wrap_id by (unfold INT_MIN; lia). done. }
  split.
  - intros tau tau' k3 k3' Ht Hk Hm Ht' Hk' Hm'.
    rewrite !Hat by lia. intros [= Heq].
    assert (tau = tau') as -> by nia. split; [done|lia].
  - intros tau index_type Ht HK0 Hm.
    assert (Heq : Src.sources_at ppt2 (Src.at_k3 ppw2 K) tau
                  = Src.sources_at ppt2 (Src.at_k3 ppw2 0) (tau + 1)).
    { rewrite !Hat by lia. f_equal. lia. }
    split; [done|]. unfold Src.sources. rewrite Heq. reflexivity.
Qed.

Lemma sources_flattening_witness :
  Arr.get2 (perturbs2_sources.k3_size Run.sources2)
    (index_k1 (Scenario.blankw Scenario.pv2))
    (index_k2 (Scenario.blankw Scenario.pv2)) = Some 2
  ∧ (0 ≤ 0 ∧ 0 ≤ 2 ∧ (0 + 1) * 2 ≤ INT_MAX)
  ∧ Src.sources Run.sources2 (Src.at_k3 (Scenario.blankw Scenario.pv2) 2) 0 0
    = Src.sources Run.sources2 (Src.at_k3 (Scenario.blankw Scenario.pv2) 0) (0 + 1) 0.
Proof.
  assert (H : Arr.get2 (perturbs2_sources.k3_size Run.sources2)
                (index_k1 (Scenario.blankw Scenario.pv2))
                (index_k2 (Scenario.blankw Scenario.pv2)) = Some 2)
    by (by vm_compute).
  assert (Hb : 0 ≤ 0 ∧ 0 ≤ 2 ∧ (0 + 1) * 2 ≤ INT_MAX)
    by (unfold INT_MAX; lia).
  split; [exact H|]. split; [exact Hb|].
  exact (proj2 (proj2 (sources_flattening Run.sources2
                         (Scenario.blankw Scenario.pv2) 2 H) 0 0
                  (proj1 Hb) (proj1 (proj2 Hb)) (proj2 (proj2 Hb)))).
Defined.

Example sources_read :
  Src.sources Run.sources2 (Src.at_k3 (Scenario.blankw Scenario.pv2) 1) 2 0
  = Some zero
  ∧ Src.sources Run.sources2 (Src.at_k3 (Scenario.blankw Scenario.pv2) 0) 3 0
    = None.
Proof. split; by vm_compute. Qed.

(** Where the product leaves the [int]s the subscript wraps: with [65536]
    wavemodes per instant, instant [65536] names the cells of instant
    [0]. *)
Example sources_wrap :
  Src.sources_at Run.sources_wide (Src.at_k3 (Scenario.blankw Scenario.pv2) 1) 65536
  = Src.sources_at Run.sources_wide (Src.at_k3 (Scenario.blankw Scenario.pv2) 1) 0.
Proof. by vm_compute. Qed.

(** X9: a store into the state buffer changes what a read macro returns
    only at the cell the macro reads: a store elsewhere leaves the read as
    it was, and a store of [v] into the cell [base(family) + lookup(l,m)]
    of a multipole the macro lets through is read back as [v]. *)
Theorem state_store_read (ppt2 : perturbs2.t) (ppr2 : precision2.t)
    (ppw2 : perturb2_workspace.t) (y : gmap Z double)
    (f : family) (n l m i : Z) (v : double) :
  ((∀ o, Fam.lookup ppt2 ppr2 f n l m = Some o → i ≠ Fam.base ppw2 f + o) →
   Fam.get ppt2 ppr2 ppw2 (<[i:=v]> y) f n l m = Fam.get ppt2 ppr2 ppw2 y f n l m)
  ∧ (0 ≤ l → Z.abs m ≤ l →
     (Fam.massive f = false → l ≤ Fam.l_max ppw2 f) →
     (Fam.polarization f = true → has_polarization2 ppt2 ≠ _FALSE_) →
     ∀ o, Fam.lookup ppt2 ppr2 f n l m = Some o →
          Fam.get ppt2 ppr2 ppw2 (<[Fam.base ppw2 f + o := v]> y) f n l m = Some v).
Proof.
  pose proof (abs_le m) as Hle. split.
  - intros Hne.
    destruct f; cbn [Fam.get Fam.lookup Fam.massive Fam.base] in *;
      unfold P2.I, P2.E, P2.B, P2.N, P2.b, P2.cdm; zbool; try reflexivity;
      match goal with
      | |- context [P2.lm ?a ?b ?c ?d] => destruct (P2.lm a b c d) as [o|]
      | |- context [P2.nlm ?a ?b ?c ?d ?e] => destruct (P2.nlm a b c d e) as [o|]
      end; try reflexivity; simpl; apply lookup_insert_ne;
      by intros ->; apply (Hne o).
  - intros Hl Hm Hmax Hpol o Ho.
    destruct f; cbn [Fam.get Fam.lookup Fam.massive Fam.polarization
                     Fam.l_max Fam.base] in *;
      unfold P2.I, P2.E, P2.B, P2.N, P2.b, P2.cdm; rewrite Ho; zbool;
      try (simpl; apply lookup_insert_eq);
      exfalso; try (specialize (Hmax eq_refl)); try (specialize (Hpol eq_refl));
      try lia; try done.
Qed.

(** X10: when the table and the state buffer hold every moment of the
    radial order [n] with [0 <= l <= 2] and [|m| <= l], the read macro of a
    massive family has a value at every integer pair [(l,m)] with [l <= 2]
    and [m > INT_MIN]. *)
Theorem massive_read_in_bounds (ppt2 : perturbs2.t) (ppr2 : precision2.t)
    (ppw2 : perturb2_workspace.t) (y : gmap Z double) (f : family) (n : Z) :
  Fam.massive f = true →
  Run.covers_massive ppt2 ppr2 ppw2 y f n →
  ∀ l m, l ≤ 2 → INT_MIN < m → is_Some (Fam.get ppt2 ppr2 ppw2 y f n l m).
Proof.
  intros Hf Hcov l m Hl Hmin. pose proof (abs_eq m Hmin) as Ha.
  destruct f; try discriminate; cbn [Fam.get];
    unfold P2.b, P2.cdm; rewrite Ha; zbool; try (by eexists);
    (destruct (Hcov l m) as (o & -> & Hy); [lia|lia|exact Hy]).
Qed.

Lemma covers_massive_scenario n :
  0 ≤ n ≤ 2 →
  Run.covers_massive (Setup.with_tables 2 Scenario.blank2) (Setup.index_table 2)
    (Scenario.blankw Scenario.pv2) Run.y90 cdm_beta n.
Proof.
  intros Hn l m Hl Hm.
  exists (9 * n + l * l + l + m). split; [apply SetupFacts.nlm_built; lia|].
  unfold Run.y90. apply lookup_map_seqZ_is_Some.
  rewrite length_replicate. simpl. nia.
Qed.

Lemma massive_read_in_bounds_witness :
  Fam.massive cdm_beta = true
  ∧ Run.covers_massive (Setup.with_tables 2 Scenario.blank2)
      (Setup.index_table 2) (Scenario.blankw Scenario.pv2) Run.y90 cdm_beta 1
  ∧ 2 ≤ 2 ∧ INT_MIN < -2
  ∧ is_Some (Fam.get (Setup.with_tables 2 Scenario.blank2) (Setup.index_table 2)
               (Scenario.blankw Scenario.pv2) Run.y90 cdm_beta 1 2 (-2)).
Proof.
  assert (H : Run.covers_massive (Setup.with_tables 2 Scenario.blank2)
                (Setup.index_table 2) (Scenario.blankw Scenario.pv2) Run.y90
                cdm_beta 1) by (apply covers_massive_scenario; lia).
  assert (H2 : INT_MIN < -2) by (unfold INT_MIN; lia).
  split; [reflexivity|]. split; [exact H|]. split; [lia|]. split; [done|].
  refine (massive_read_in_bounds _ _ _ _ cdm_beta 1 eq_refl H 2 (-2) _ H2). lia.
Defined.
